(** * RLS lint reports and the database-analysis wrapper

    A shallow embedding of the three scripts of the repository:

    - [analyze_rls_issues.py] and [rls_consolidation_analysis.py], which read
      the rows of a CSV export, extract table, role, action and policy names
      from the [detail] text of each row, group them and print summaries;
    - [scripts/analyze-db.py], a command-line wrapper that sends one
      JSON request to a spawned [postgres-mcp] process.

    Python strings are sequences of code points and are modelled as lists of
    [N]; Python integers are unbounded and are modelled with [Z]; a Python
    [dict] keeps insertion order and is modelled as an association list;
    exceptions are modelled with an explicit result type. *)

From Stdlib Require Import Ascii String DecimalString DecimalPos.
From Stdlib Require Import List ZArith NArith Lia Bool QArith.
From Stdlib Require Import Permutation Sorted.
Import ListNotations.

Local Close Scope Q_scope.
Local Open Scope Z_scope.
Local Open Scope list_scope.

(* ================================================================== *)
(** * Part I: definitions *)
(* ================================================================== *)

(** ** Python values: strings, exceptions *)

Definition char := N.
Definition str := list char.

(** A literal of the source, as a sequence of code points. *)
Definition py (s : string) : str := map N_of_ascii (list_ascii_of_string s).

Definition backtick : char := 96%N.
Definition dquote : char := 34%N.
Definition newline : char := 10%N.
Definition underscore : char := 95%N.

Fixpoint str_eqb (a b : str) : bool :=
  match a, b with
  | [], [] => true
  | x :: a', y :: b' => N.eqb x y && str_eqb a' b'
  | _, _ => false
  end.

Inductive exn : Type :=
| KeyError (k : str)
| TypeError
| ValueError
| ZeroDivisionError
| SystemExit (code : Z).

Inductive result (A : Type) : Type :=
| Ok (a : A)
| Raise (e : exn).
Arguments Ok {A} a.
Arguments Raise {A} e.

Definition bind {A B} (r : result A) (k : A -> result B) : result B :=
  match r with
  | Ok a => k a
  | Raise e => Raise e
  end.

Notation "x <- r ;; k" := (bind r (fun x => k))
  (at level 61, r at next level, right associativity).

(** ** The fragment of [re] the scripts use *)

(** [strip_prefix p s] is the rest of [s] after the literal [p], when [s]
    starts with [p]. *)
Fixpoint strip_prefix (p s : str) : option str :=
  match p, s with
  | [], _ => Some s
  | a :: p', b :: s' => if N.eqb a b then strip_prefix p' s' else None
  | _ :: _, [] => None
  end.

(** The longest prefix whose characters satisfy [f], and what follows it. *)
Fixpoint span (f : char -> bool) (s : str) : str * str :=
  match s with
  | [] => ([], [])
  | c :: s' =>
      if f c then let (g, r) := span f s' in (c :: g, r) else ([], s)
  end.

Definition not_backtick (c : char) : bool := negb (N.eqb c backtick).

(** A match, anchored at the start of [s], of the literal [lit] followed by
    a backtick-free group of one or more characters and a closing backtick.
    The group is greedy; giving back characters can never help, since the
    character after a shorter group is not a backtick. *)
Definition match_backticked (lit : str) (s : str) : option str :=
  match strip_prefix lit s with
  | Some rest =>
      match span not_backtick rest with
      | (c :: g, b :: _) => if N.eqb b backtick then Some (c :: g) else None
      | _ => None
      end
  | None => None
  end.

(** One or more characters other than a newline, as few as possible, up to
    the first place where the literal [close] follows. *)
Fixpoint lazy_dots (close : str) (s : str) : option str :=
  match s with
  | [] => None
  | c :: s' =>
      if N.eqb c newline then None
      else match strip_prefix close s' with
           | Some _ => Some [c]
           | None => option_map (cons c) (lazy_dots close s')
           end
  end.

(** A match, anchored at the start of [s], of the literal [open], a lazy
    group and the literal [close]. *)
Definition match_lazy (open close : str) (s : str) : option str :=
  match strip_prefix open s with
  | Some rest => lazy_dots close rest
  | None => None
  end.

(** [re.search]: the group of the match at the leftmost position that has
    one. *)
Fixpoint re_search (m : str -> option str) (s : str) : option str :=
  match m s with
  | Some g => Some g
  | None =>
      match s with
      | [] => None
      | _ :: s' => re_search m s'
      end
  end.

Definition table_regex : str -> option str :=
  match_backticked (py "Table `public.").
Definition role_regex : str -> option str :=
  match_backticked (py "for role `").
Definition action_regex : str -> option str :=
  match_backticked (py "for action `").
Definition policies_regex : str -> option str :=
  match_lazy (py "Policies include `{") (py "}`").

(** ** String methods *)

Definition in_chars (chars : str) (c : char) : bool :=
  existsb (N.eqb c) chars.

Fixpoint py_lstrip (chars : str) (s : str) : str :=
  match s with
  | [] => []
  | c :: s' => if in_chars chars c then py_lstrip chars s' else s
  end.

Definition py_rstrip (chars : str) (s : str) : str :=
  rev (py_lstrip chars (rev s)).

Definition py_strip (chars : str) (s : str) : str :=
  py_rstrip chars (py_lstrip chars s).

(** The first occurrence of [sep] in [s]: what precedes it and what follows
    it. *)
Fixpoint find_sep (sep s : str) : option (str * str) :=
  match strip_prefix sep s with
  | Some rest => Some ([], rest)
  | None =>
      match s with
      | [] => None
      | c :: s' =>
          match find_sep sep s' with
          | Some (a, b) => Some (c :: a, b)
          | None => None
          end
      end
  end.

(** The loop of [str.split(sep, maxsplit)] for a non-empty [sep]: cut at
    the next occurrence while the count of cuts allows. *)
Fixpoint split_loop (sep : str) (maxcount : nat) (s : str) : list str :=
  match maxcount with
  | O => [s]
  | S n =>
      match find_sep sep s with
      | Some (a, b) => a :: split_loop sep n b
      | None => [s]
      end
  end.

(** [maxsplit = None] is the default [-1], no limit: a string of length
    [n] has at most [n] occurrences of a non-empty separator. *)
Definition py_split (sep : str) (maxsplit : option nat) (s : str) : list str :=
  match maxsplit with
  | Some n => split_loop sep n s
  | None => split_loop sep (length s) s
  end.

(** [l[0] = f(l[0])] and [l[-1] = f(l[-1])] on a list. *)
Definition set_first {A} (f : A -> A) (l : list A) : list A :=
  match l with
  | [] => []
  | x :: l' => f x :: l'
  end.

Fixpoint set_last {A} (f : A -> A) (l : list A) : list A :=
  match l with
  | [] => []
  | [x] => [f x]
  | x :: l' => x :: set_last f l'
  end.

(** ** Rows and issues (both report scripts) *)

(** A row of [csv.DictReader]: column name to field, [None] for a field the
    line is too short to have. *)
Definition row := list (str * option str).

Fixpoint getitem {V} (d : list (str * V)) (k : str) : result V :=
  match d with
  | [] => Raise (KeyError k)
  | (k', v) :: d' => if str_eqb k k' then Ok v else getitem d' k
  end.

Record Issue : Type := mkIssue {
  table : str;
  role : str;
  action : str;
  policies : list str;
  policy_count : Z
}.

Definition or_unknown (m : option str) : str :=
  match m with
  | Some g => g
  | None => py "Unknown"
  end.

Definition quoted_comma : str := [dquote; 44%N; dquote].

Definition extract_policies (detail : str) : list str :=
  match re_search policies_regex detail with
  | Some policies_str =>
      let policies :=
        map (py_strip [dquote]) (py_split quoted_comma None policies_str) in
      match policies with
      | [] => policies
      | _ :: _ =>
          set_last (py_rstrip [dquote]) (set_first (py_lstrip [dquote]) policies)
      end
  | None => []
  end.

Definition extract (detail : str) : Issue :=
  let table := or_unknown (re_search table_regex detail) in
  let role := or_unknown (re_search role_regex detail) in
  let action := or_unknown (re_search action_regex detail) in
  let policies := extract_policies detail in
  mkIssue table role action policies (Z.of_nat (length policies)).

(** The body of the loop over [data]: [row['detail']] raises [KeyError]
    when the export has no such column, and [re.search] raises [TypeError]
    on [None]. *)
Definition parse_row (r : row) : result Issue :=
  d <- getitem r (py "detail") ;;
  match d with
  | Some detail => Ok (extract detail)
  | None => Raise TypeError
  end.

Fixpoint parse_rows (data : list row) : result (list Issue) :=
  match data with
  | [] => Ok []
  | r :: data' =>
      i <- parse_row r ;;
      issues <- parse_rows data' ;;
      Ok (i :: issues)
  end.

(** ** Grouping by table, then by role and action *)

Record Conflict : Type := mkConflict {
  c_policies : list str;
  c_count : Z
}.

Record Summary : Type := mkSummary {
  total_issues : Z;
  role_actions : list (str * list Conflict)
}.

(** [d[k] = f(d[k])] on a [defaultdict]: a missing key is first bound to
    [default], at the end of the insertion order. *)
Fixpoint dd_modify {V} (default : V) (f : V -> V) (k : str)
    (d : list (str * V)) : list (str * V) :=
  match d with
  | [] => [(k, f default)]
  | (k', v) :: d' =>
      if str_eqb k k' then (k', f v) :: d'
      else (k', v) :: dd_modify default f k d'
  end.

Definition default_summary : Summary := mkSummary 0 [].

Definition incr_total (s : Summary) : Summary :=
  mkSummary (total_issues s + 1) (role_actions s).

Definition append_conflict (key : str) (c : Conflict) (s : Summary) : Summary :=
  mkSummary (total_issues s)
            (dd_modify [] (fun conflicts => conflicts ++ [c]) key (role_actions s)).

(** The key of the inner dictionary: ["{role}_{action}"] in
    [analyze_rls_issues.py], ["{role}+{action}"] in
    [rls_consolidation_analysis.py]. *)
Definition role_action_key (sep : str) (issue : Issue) : str :=
  role issue ++ sep ++ action issue.

Definition group_step (sep : str) (table_summary : list (str * Summary))
    (issue : Issue) : list (str * Summary) :=
  let t := table issue in
  let table_summary := dd_modify default_summary incr_total t table_summary in
  let key := role_action_key sep issue in
  dd_modify default_summary
    (append_conflict key (mkConflict (policies issue) (policy_count issue)))
    t table_summary.

Definition group (sep : str) (issues : list Issue) : list (str * Summary) :=
  fold_left (group_step sep) issues [].

Definition py_sum (l : list Z) : Z := fold_left Z.add l 0.

(** ** [analyze_rls_issues.py]: decoding the key *)

Definition unpack2 (l : list str) : result (str * str) :=
  match l with
  | [a; b] => Ok (a, b)
  | _ => Raise ValueError
  end.

(** [role, action = role_action.split(sep, 1)]. *)
Definition split_key (sep : str) (role_action : str) : result (str * str) :=
  unpack2 (py_split sep (Some 1%nat) role_action).

(** ** [list.sort(key=..., reverse=...)] *)

Section Sort.
Context {A K : Type} (key : A -> K) (lt : K -> K -> bool).

(** [x] goes after the elements strictly below it and before the rest. *)
Fixpoint insert_stable (x : A) (l : list A) : list A :=
  match l with
  | [] => [x]
  | y :: l' =>
      if lt (key y) (key x) then y :: insert_stable x l' else x :: l
  end.

Fixpoint sort_stable (l : list A) : list A :=
  match l with
  | [] => []
  | x :: l' => insert_stable x (sort_stable l')
  end.

(** With [reverse], the list is reversed, sorted and reversed again, which
    keeps equal keys in their original order. *)
Definition py_sort (reverse : bool) (l : list A) : list A :=
  if reverse then rev (sort_stable (rev l)) else sort_stable l.
End Sort.

(** [<] on pairs of integers. *)
Definition tuple_lt (a b : Z * Z) : bool :=
  if Z.eqb (fst a) (fst b) then Z.ltb (snd a) (snd b)
  else Z.ltb (fst a) (fst b).

(** ** [rls_consolidation_analysis.py]: severity and performance impact *)

(** What the name [data] is bound to: the rows of the CSV file at first, a
    value of [table_summary] once a [for table, data in ...] loop has run. *)
Inductive DataBinding : Type :=
| DataRows (rows : list row)
| DataSummary (s : Summary).

Definition summary_keys (s : Summary) : list str :=
  [py "total_issues"; py "role_actions"].

Definition len_data (d : DataBinding) : Z :=
  match d with
  | DataRows rows => Z.of_nat (length rows)
  | DataSummary s => Z.of_nat (length (summary_keys s))
  end.

Definition all_counts (s : Summary) : list Z :=
  flat_map (fun ra => map c_count (snd ra)) (role_actions s).

Definition py_max (l : list Z) : result Z :=
  match l with
  | [] => Raise ValueError
  | x :: l' => Ok (fold_left Z.max l' x)
  end.

Definition severity_entry : Type := str * Z * Z.

Definition severity_key (x : severity_entry) : Z * Z :=
  (snd (fst x), snd x).

(** The loop of lines 107 to 110, on the pair of [data] and
    [severity_by_table]. *)
Fixpoint severity_loop (items : list (str * Summary))
    (st : DataBinding * list severity_entry)
    : result (DataBinding * list severity_entry) :=
  match items with
  | [] => Ok st
  | (t, s) :: items' =>
      let data := DataSummary s in
      let total := total_issues s in
      max_policies <- py_max (all_counts s) ;;
      severity_loop items' (data, snd st ++ [(t, total, max_policies)])
  end.

Definition severity_ranking (table_summary : list (str * Summary))
    (data : DataBinding) : result (DataBinding * list severity_entry) :=
  st <- severity_loop table_summary (data, []) ;;
  Ok (fst st, py_sort severity_key tuple_lt true (snd st)).

(** The loop of lines 129 and 130, on the pair of [data] and
    [consolidation_needed]. *)
Definition consolidation_loop (items : list (str * Summary))
    (st : DataBinding * Z) : DataBinding * Z :=
  fold_left (fun st ts => (DataSummary (snd ts), snd st + total_issues (snd ts)))
            items st.

Definition total_policy_executions_before
    (table_summary : list (str * Summary)) : Z :=
  py_sum (flat_map (fun ts => all_counts (snd ts)) table_summary).

(** The variables of the script when line 143 has run. *)
Record Vars : Type := mkVars {
  v_data : DataBinding;
  v_table_summary : list (str * Summary);
  v_severity_by_table : list severity_entry;
  v_consolidation_needed : Z;
  v_before : Z;
  v_after : Z
}.

Definition performance_vars (rows : list row) : result Vars :=
  let data := DataRows rows in
  issues <- parse_rows rows ;;
  let table_summary := group (py "+") issues in
  st <- severity_ranking table_summary data ;;
  let st' := consolidation_loop table_summary (fst st, 0) in
  let before := total_policy_executions_before table_summary in
  let after := len_data (fst st') in
  Ok (mkVars (fst st') table_summary (snd st) (snd st') before after).

(** [a / b] on integers; the float of the source is the exact quotient
    here. *)
Definition true_div (a b : Z) : result Q :=
  if Z.eqb b 0 then Raise ZeroDivisionError
  else Ok (Qdiv (inject_Z a) (inject_Z b)).

Definition performance_improvement (v : Vars) : result Q :=
  q <- true_div (v_before v - v_after v) (v_before v) ;;
  Ok (Qmult q (inject_Z 100)).

(** The three values printed under PERFORMANCE IMPACT. *)
Definition performance_impact (rows : list row) : result (Z * Z * Q) :=
  v <- performance_vars rows ;;
  q <- performance_improvement v ;;
  Ok (v_before v, v_after v, q).

(** ** [scripts/analyze-db.py] *)

(** The values [json.dumps] is given here. *)
#[warnings="-register-all"]
Inductive json : Type :=
| JString (s : str)
| JInt (n : Z)
| JObject (fields : list (str * json)).

Definition hex_digit (n : N) : char :=
  (if n <? 10 then 48 + n else 87 + n)%N.

Definition hex4 (n : N) : str :=
  [hex_digit ((n / 4096) mod 16); hex_digit ((n / 256) mod 16);
   hex_digit ((n / 16) mod 16); hex_digit (n mod 16)]%N.

Definition u_escape (n : N) : str := py "\u" ++ hex4 n.

(** The escapes of [json.dumps] with [ensure_ascii]. *)
Definition escape_char (c : char) : str :=
  (if c =? 92 then py "\\"
   else if c =? dquote then [92; dquote]
   else if (32 <=? c) && (c <=? 126) then [c]
   else if c =? 8 then py "\b"
   else if c =? 12 then py "\f"
   else if c =? 10 then py "\n"
   else if c =? 13 then py "\r"
   else if c =? 9 then py "\t"
   else if c <? 0x10000 then u_escape c
   else
     let n := c - 0x10000 in
     u_escape (N.lor 0xd800 (N.land (N.shiftr n 10) 0x3ff))
       ++ u_escape (N.lor 0xdc00 (N.land n 0x3ff)))%N.

Definition json_quote (s : str) : str :=
  [dquote] ++ flat_map escape_char s ++ [dquote].

Fixpoint join (sep : str) (l : list str) : str :=
  match l with
  | [] => []
  | [x] => x
  | x :: l' => x ++ sep ++ join sep l'
  end.

Definition decimal (n : Z) : str :=
  py (NilEmpty.string_of_int (Z.to_int n)).

Fixpoint json_dumps (j : json) : str :=
  match j with
  | JString s => json_quote s
  | JInt n => decimal n
  | JObject fields =>
      py "{"
        ++ join (py ", ")
             (map (fun kv => json_quote (fst kv) ++ py ": " ++ json_dumps (snd kv))
                  fields)
        ++ py "}"
  end.

(** [d.get(k, default)]. *)
Fixpoint dict_get {V} (d : list (str * V)) (k : str) (default : V) : V :=
  match d with
  | [] => default
  | (k', v) :: d' => if str_eqb k k' then v else dict_get d' k default
  end.

(** What a run leaves behind: the lines given to [print], and for each
    spawned process its argument vector and the text sent to its standard
    input. *)
Record World : Type := mkWorld {
  printed : list str;
  spawned : list (list str * str)
}.

Definition IO (A : Type) : Type := World -> World * result A.

Definition io_ret {A} (a : A) : IO A := fun w => (w, Ok a).

Definition io_bind {A B} (m : IO A) (k : A -> IO B) : IO B :=
  fun w =>
    match m w with
    | (w', Ok a) => k a w'
    | (w', Raise e) => (w', Raise e)
    end.

Notation "x <~ m ;; k" := (io_bind m (fun x => k))
  (at level 61, m at next level, right associativity).
Notation "m ;;; k" := (io_bind m (fun _ => k))
  (at level 61, right associativity).

Definition print (s : str) : IO unit :=
  fun w => (mkWorld (printed w ++ [s]) (spawned w), Ok tt).

Definition sys_exit {A} (code : Z) : IO A :=
  fun w => (w, Raise (SystemExit code)).

Definition lift {A} (r : result A) : IO A := fun w => (w, r).

(** The status the interpreter exits with. *)
Definition exit_status {A} (r : result A) : Z :=
  match r with
  | Ok _ => 0
  | Raise (SystemExit code) => code
  | Raise _ => 1
  end.

Definition usage : str :=
  [newline]
  ++ py "Usage: python analyze-db.py <command> [arguments]" ++ [newline]
  ++ [newline]
  ++ py "Commands:" ++ [newline]
  ++ py "  health              - Run comprehensive database health check" ++ [newline]
  ++ py "  slow-queries        - Find the slowest queries" ++ [newline]
  ++ py "  index-recommend     - Get index recommendations" ++ [newline]
  ++ py "  explain <query>     - Explain a specific query" ++ [newline]
  ++ [newline]
  ++ py "Examples:" ++ [newline]
  ++ py "  python analyze-db.py health" ++ [newline]
  ++ py "  python analyze-db.py slow-queries" ++ [newline]
  ++ py "  python analyze-db.py explain " ++ [dquote]
  ++ py "SELECT * FROM projects WHERE status = 'active'" ++ [dquote] ++ [newline]
  ++ py "        ".

Section AnalyzeDb.
(** The connection string, from the environment or the default of the
    source. *)
Variable DATABASE_URL : str.
(** The spawned process: from its argument vector and standard input to
    its standard output and standard error. *)
Variable postgres_mcp : list str -> str -> str * str.

(** [Popen(...)] followed by [process.communicate(input=...)], for a
    process that starts and writes text that can be decoded: a missing
    executable makes [Popen] raise before anything is written, and is not
    part of this model. *)
Definition communicate (args : list str) (input : str) : IO (str * str) :=
  fun w =>
    (mkWorld (printed w) (spawned w ++ [(args, input)]),
     Ok (postgres_mcp args input)).

Definition run_mcp_command (command : list (str * json)) : IO str :=
  name <~ lift (getitem command (py "name")) ;;
  let mcp_input :=
    JObject [(py "jsonrpc", JString (py "2.0"));
             (py "method", JString (py "tools/call"));
             (py "params",
              JObject [(py "name", name);
                       (py "arguments",
                        dict_get command (py "arguments") (JObject []))]);
             (py "id", JInt 1)] in
  out <~ communicate
           [py "postgres-mcp"; py "--access-mode=restricted"; DATABASE_URL]
           (json_dumps mcp_input) ;;
  let (stdout, stderr) := (out : str * str) in
  (match stderr with
   | [] => io_ret tt
   | _ :: _ => print (py "Error: " ++ stderr)
   end) ;;;
  io_ret stdout.

Definition analyze_db_health : IO unit :=
  print ([0x1F3E5%N] ++ py " Running Database Health Analysis...") ;;;
  result <~ run_mcp_command [(py "name", JString (py "analyze_db_health"))] ;;
  print result.

Definition get_top_queries : IO unit :=
  print ([0x1F40C%N] ++ py " Finding Slowest Queries...") ;;;
  result <~ run_mcp_command [(py "name", JString (py "get_top_queries"))] ;;
  print result.

Definition analyze_workload_indexes : IO unit :=
  print ([0x1F4CA%N] ++ py " Analyzing Workload for Index Recommendations...") ;;;
  result <~ run_mcp_command
              [(py "name", JString (py "analyze_workload_indexes"))] ;;
  print result.

Definition explain_query (query : str) : IO unit :=
  print ([0x1F50D%N] ++ py " Explaining Query: " ++ firstn 50 query ++ py "...") ;;;
  result <~ run_mcp_command
              [(py "name", JString (py "explain_query"));
               (py "arguments", JObject [(py "query", JString query)])] ;;
  print result.

Definition main (argv : list str) : IO unit :=
  if (length argv <? 2)%nat then
    print usage ;;; sys_exit 1
  else
    let command := nth 1 argv [] in
    if str_eqb command (py "health") then analyze_db_health
    else if str_eqb command (py "slow-queries") then get_top_queries
    else if str_eqb command (py "index-recommend") then analyze_workload_indexes
    else if str_eqb command (py "explain") && (2 <? length argv)%nat then
      explain_query (nth 2 argv [])
    else
      print (py "Unknown command: " ++ command) ;;; sys_exit 1.

(** A run of the script from a fresh process. *)
Definition run (argv : list str) : World * result unit :=
  main argv (mkWorld [] []).
End AnalyzeDb.

(** ** Vocabulary of the statements *)

(** [s] contains the literal [lit], a non-empty backtick-free group and a
    closing backtick. *)
Definition has_backticked (lit : str) (s : str) : Prop :=
  exists pre g post,
    s = pre ++ lit ++ g ++ backtick :: post
    /\ g <> [] /\ Forall (fun c => c <> backtick) g.

(** [s = pre ++ "Policies include `{" ++ g ++ "}`" ++ post] with a non-empty
    group [g] on one line. *)
Definition policies_segment (s pre g post : str) : Prop :=
  s = pre ++ py "Policies include `{" ++ g ++ py "}`" ++ post
  /\ g <> [] /\ Forall (fun c => c <> newline) g.

Definition has_policies (s : str) : Prop :=
  exists pre g post, policies_segment s pre g post.

Definition unknown_issue : Issue :=
  mkIssue (py "Unknown") (py "Unknown") (py "Unknown") [] 0.

Fixpoint zsum (l : list Z) : Z :=
  match l with
  | [] => 0
  | x :: l' => x + zsum l'
  end.

Fixpoint lookup {V} (k : str) (d : list (str * V)) : option V :=
  match d with
  | [] => None
  | (k', v) :: d' => if str_eqb k k' then Some v else lookup k d'
  end.



(** [s] does not start with a character of [chars]. *)
Definition head_kept (chars s : str) : Prop :=
  match s with
  | [] => True
  | c :: _ => in_chars chars c = false
  end.

(** The sum of [g] over the values of a dictionary. *)
Definition sumv {V} (g : V -> Z) (d : list (str * V)) : Z :=
  zsum (map (fun kv => g (snd kv)) d).

(** The keys of a dictionary after an access to [k]. *)
Definition add_key (k : str) (ks : list str) : list str :=
  if existsb (str_eqb k) ks then ks else ks ++ [k].

(** The value of [table_summary[t]], the default when [t] is missing. *)
Definition get_summary (t : str) (d : list (str * Summary)) : Summary :=
  match lookup t d with
  | Some s => s
  | None => default_summary
  end.

(** [x] is not above [y] for the order [lt] on keys. *)
Definition not_above {A K} (key : A -> K) (lt : K -> K -> bool) (x y : A)
    : Prop :=
  lt (key y) (key x) = false.

(** The elements of [l] in the order of their first occurrences. *)
Fixpoint nub (l : list str) : list str :=
  match l with
  | [] => []
  | x :: l' => x :: filter (fun y => negb (str_eqb y x)) (nub l')
  end.

Definition issues_of (t : str) (issues : list Issue) : list Issue :=
  filter (fun i => str_eqb (table i) t) issues.



Definition entry_table (x : severity_entry) : str := fst (fst x).

(** [e] is the entry the severity loop appends for the item [ts]. *)
Definition entry_of (ts : str * Summary) (e : severity_entry) : Prop :=
  entry_table e = fst ts
  /\ snd (fst e) = total_issues (snd ts)
  /\ py_max (all_counts (snd ts)) = Ok (snd e).

(** What [data] is bound to after a [for table, data in ...] loop. *)
Definition rebound (items : list (str * Summary)) (d : DataBinding)
    : DataBinding :=
  fold_left (fun _ ts => DataSummary (snd ts)) items d.


(** The row has a [detail] text with a policies segment. *)
Definition row_has_policies (r : row) : Prop :=
  exists detail,
    getitem r (py "detail") = Ok (Some detail) /\ has_policies detail.

(** The issue of a row that is parsed without an exception. *)
Definition parsed (r : row) (i : Issue) : Prop :=
  exists detail,
    getitem r (py "detail") = Ok (Some detail) /\ i = extract detail.

(** The sum of the policy counts of the conflicts of a table. *)
Definition executions (s : Summary) : Z := zsum (all_counts s).

(** [pieces] is what [s.split(sep)] returns for a non-empty [sep]: [s] is
    cut at the first occurrence of [sep], what follows it is cut in the same
    way, and the last piece has no occurrence of [sep]. *)
Inductive Split (sep : str) : str -> list str -> Prop :=
| Split_last (s : str) :
    (forall a b, s <> a ++ sep ++ b) -> Split sep s [s]
| Split_cut (s a b : str) (pieces : list str) :
    s = a ++ sep ++ b ->
    (forall a' b', s = a' ++ sep ++ b' -> (length a <= length a')%nat) ->
    Split sep b pieces ->
    Split sep s (a :: pieces).

(** [name] is [piece] without the double quotes at its two ends. *)
Definition unquoted (piece name : str) : Prop :=
  exists l r,
    piece = l ++ name ++ r
    /\ Forall (eq dquote) l /\ Forall (eq dquote) r
    /\ hd_error name <> Some dquote /\ hd_error (rev name) <> Some dquote.

(** An export with a single finding that lists no policies. *)
Definition row_without_policies : row :=
  [(py "name", Some (py "auth_rls_initplan"));
   (py "detail",
    Some (py "Table `public.users` has a row level security policy `own rows`"))].

(** An export with three findings on two tables. *)
Definition two_policies : str :=
  py "Policies include `{" ++ [dquote] ++ py "Admin access" ++ quoted_comma
    ++ py "User view" ++ [dquote] ++ py "}`".

Definition sample_details : list str :=
  [py "Table `public.projects` has multiple permissive policies "
     ++ py "for role `anon` for action `SELECT`. " ++ two_policies;
   py "Table `public.tasks` has multiple permissive policies "
     ++ py "for role `service_role` for action `UPDATE`. "
     ++ py "Policies include `{owner,member,guest}`";
   py "Table `public.projects` has multiple permissive policies "
     ++ py "for role `authenticated` for action `SELECT`. " ++ two_policies].

Definition sample_rows : list row :=
  map (fun d => [(py "name", Some (py "multiple_permissive_policies"));
                 (py "detail", Some d)]) sample_details.

Definition sample_issues : list Issue := map extract sample_details.

(** A run that prints one line, spawns nothing and exits with status 1. *)
Definition rejected (line : str) : World * result unit :=
  (mkWorld [line] [], Raise (SystemExit 1)).

(** The request of [run_mcp_command] for a tool and its arguments. *)
Definition tools_call (name : str) (arguments : json) : json :=
  JObject [(py "jsonrpc", JString (py "2.0"));
           (py "method", JString (py "tools/call"));
           (py "params",
            JObject [(py "name", JString name); (py "arguments", arguments)]);
           (py "id", JInt 1)].

(** What a subcommand prints: its banner, the standard error of the process
    under the label of line 42 when there is any, and its standard output. *)
Definition wrapper_lines (banner : str) (out : str * str) : list str :=
  banner
    :: match snd out with
       | [] => []
       | _ :: _ => [py "Error: " ++ snd out]
       end
    ++ [fst out].

Definition mcp_args (url : str) : list str :=
  [py "postgres-mcp"; py "--access-mode=restricted"; url].

(** A run that prints [banner], forwards one request for the tool [name] to
    the spawned process, prints what the process wrote and returns. *)
Definition forwarded (url : str) (mcp : list str -> str -> str * str)
    (banner name : str) (arguments : json) : World * result unit :=
  let input := json_dumps (tools_call name arguments) in
  let out := mcp (mcp_args url) input in
  (mkWorld (wrapper_lines banner out) [(mcp_args url, input)], Ok tt).

Definition health_banner : str :=
  [0x1F3E5%N] ++ py " Running Database Health Analysis...".
Definition slow_queries_banner : str :=
  [0x1F40C%N] ++ py " Finding Slowest Queries...".
Definition index_recommend_banner : str :=
  [0x1F4CA%N] ++ py " Analyzing Workload for Index Recommendations...".
Definition explain_banner (query : str) : str :=
  [0x1F50D%N] ++ py " Explaining Query: " ++ firstn 50 query ++ py "...".

(** ** The listings of [analyze_rls_issues.py] *)

(** [<] on strings: by code points, a proper prefix first. *)
Fixpoint str_ltb (a b : str) : bool :=
  match a, b with
  | _, [] => false
  | [], _ :: _ => true
  | x :: a', y :: b' => if N.eqb x y then str_ltb a' b' else N.ltb x y
  end.

(** [sorted(xs)] on strings. *)
Definition py_sorted (l : list str) : list str :=
  py_sort (fun x => x) str_ltb false l.

(** [sorted(set(xs))]: the distinct elements, taken here in the order of
    their first occurrences, then sorted. *)
Definition sorted_set (l : list str) : list str := py_sorted (nub l).

(** [sum(1 for issue in issues if issue[field] == k)]. *)
Definition count_issues (field : Issue -> str) (k : str)
    (issues : list Issue) : Z :=
  py_sum (map (fun _ => 1) (filter (fun i => str_eqb (field i) k) issues)).

(** The lines under AFFECTED TABLES and AFFECTED ROLES: each value of the
    field with its number of issues. *)
Definition affected (field : Issue -> str) (issues : list Issue)
    : list (str * Z) :=
  map (fun k => (k, count_issues field k issues))
      (sorted_set (map field issues)).

(** The lines under ALL POLICY NAMES. *)
Definition all_policies (issues : list Issue) : list str :=
  sorted_set (flat_map policies issues).

(** ** The consolidation plan of [analyze_rls_issues.py] *)

Record Plan : Type := mkPlan {
  p_role : str;
  p_action : str;
  p_current_policies : list str;
  p_new_policy_name : str;
  p_consolidation_needed : bool
}.

(** [d[k] = v] on a dictionary. *)
Fixpoint dict_set {V} (d : list (str * V)) (k : str) (v : V)
    : list (str * V) :=
  match d with
  | [] => [(k, v)]
  | (k', v') :: d' =>
      if str_eqb k k' then (k', v) :: d' else (k', v') :: dict_set d' k v
  end.

Definition new_policy_name (t role action : str) : str :=
  t ++ py "_" ++ role ++ py "_" ++ action ++ py "_consolidated".

(** The body of the loop of line 104 for one item of [role_actions]: the
    plans it appends to [consolidation_plan[table]]. *)
Definition plans_of_item (t : str) (item : str * list Conflict)
    : result (list Plan) :=
  ra <- split_key (py "_") (fst item) ;;
  Ok (map (fun conflict =>
             mkPlan (fst ra) (snd ra) (c_policies conflict)
                    (new_policy_name t (fst ra) (snd ra)) true)
          (snd item)).

Fixpoint table_plans (t : str) (items : list (str * list Conflict))
    (plans : list Plan) : result (list Plan) :=
  match items with
  | [] => Ok plans
  | item :: items' =>
      ps <- plans_of_item t item ;;
      table_plans t items' (plans ++ ps)
  end.

(** [sorted(d.items())]: the keys of a dictionary are distinct, so the
    comparison of two items is decided on their keys. *)
Definition sorted_items {V} (d : list (str * V)) : list (str * V) :=
  py_sort fst str_ltb false d.

(** The loop of lines 102 to 113 over the sorted tables; [table] is a key
    of [table_summary], so the access creates nothing. *)
Fixpoint plan_loop (tables : list str) (table_summary : list (str * Summary))
    (consolidation_plan : list (str * list Plan))
    : result (list (str * list Plan)) :=
  match tables with
  | [] => Ok consolidation_plan
  | t :: tables' =>
      ps <- table_plans t
              (sorted_items (role_actions (get_summary t table_summary))) [] ;;
      plan_loop tables' table_summary (dict_set consolidation_plan t ps)
  end.

Definition consolidation_plan (table_summary : list (str * Summary))
    : result (list (str * list Plan)) :=
  plan_loop (py_sorted (map fst table_summary)) table_summary [].

(** ** Vocabulary of the further statements *)

(** The item of [role_actions] and the conflict that an issue is recorded
    as. *)
Definition conflict_of (i : Issue) : Conflict :=
  mkConflict (policies i) (policy_count i).


(** The conflicts of a table, each with the key it is filed under. *)
Definition keyed_conflicts (s : Summary) : list (str * Conflict) :=
  flat_map (fun item => map (pair (fst item)) (snd item)) (role_actions s).

(** The keys of the inner dictionary are distinct and none of its lists is
    empty. *)
Definition summary_wf (s : Summary) : Prop :=
  NoDup (map fst (role_actions s))
  /\ Forall (fun item => snd item <> []) (role_actions s).


(** [field] is [Unknown] or the non-empty backtick-free text that follows
    [lit] somewhere in [detail], up to a closing backtick. *)
Definition extracted (lit detail field : str) : Prop :=
  (field = py "Unknown" /\ ~ has_backticked lit detail)
  \/ (field <> [] /\ Forall (fun c => c <> backtick) field
      /\ exists pre post, detail = pre ++ lit ++ field ++ backtick :: post).

Definition printable (c : char) : Prop := (32 <= c <= 126)%N.

Definition str_lt (a b : str) : Prop := str_ltb a b = true.

(** ** Reading a request back *)

(** The reader below follows [json.loads] on the texts that the requests
    are: objects, strings with their escapes and natural numbers, with
    spaces between the tokens. It is what the statement on the request is
    read against. *)

Definition unhex (c : char) : option N :=
  (if (48 <=? c) && (c <=? 57) then Some (c - 48)
   else if (97 <=? c) && (c <=? 102) then Some (c - 87)
   else if (65 <=? c) && (c <=? 70) then Some (c - 55)
   else None)%N.

Definition unhex4 (a b c d : char) : option N :=
  match unhex a, unhex b, unhex c, unhex d with
  | Some x, Some y, Some z, Some w => Some (((x * 16 + y) * 16 + z) * 16 + w)%N
  | _, _, _, _ => None
  end.

Definition simple_escape (e : char) : option char :=
  (if e =? 34 then Some 34
   else if e =? 92 then Some 92
   else if e =? 47 then Some 47
   else if e =? 98 then Some 8
   else if e =? 102 then Some 12
   else if e =? 110 then Some 10
   else if e =? 114 then Some 13
   else if e =? 116 then Some 9
   else None)%N.

Definition cons_char (c : char) (r : option (str * str)) : option (str * str) :=
  match r with
  | Some (t, rest) => Some (c :: t, rest)
  | None => None
  end.

(** The characters of a string literal after its opening quote, and what
    follows its closing quote. A high surrogate escape followed by a low
    one stands for one character. *)
Fixpoint read_string (s : str) : option (str * str) :=
  match s with
  | [] => None
  | c :: rest =>
      if N.eqb c 34 then Some ([], rest)
      else if N.eqb c 92 then
        match rest with
        | [] => None
        | e :: rest1 =>
            if N.eqb e 117 then
              match rest1 with
              | h1 :: h2 :: h3 :: h4 :: rest2 =>
                  match unhex4 h1 h2 h3 h4 with
                  | None => None
                  | Some n =>
                      if (N.leb 0xD800 n && N.ltb n 0xDC00)%bool then
                        match rest2 with
                        | b :: u :: l1 :: l2 :: l3 :: l4 :: rest3 =>
                            if (N.eqb b 92 && N.eqb u 117)%bool then
                              match unhex4 l1 l2 l3 l4 with
                              | None => None
                              | Some m =>
                                  if (N.leb 0xDC00 m && N.ltb m 0xE000)%bool
                                  then cons_char
                                         (0x10000 + (n - 0xD800) * 1024
                                          + (m - 0xDC00))%N
                                         (read_string rest3)
                                  else cons_char n (read_string rest2)
                              end
                            else cons_char n (read_string rest2)
                        | _ => cons_char n (read_string rest2)
                        end
                      else cons_char n (read_string rest2)
                  end
              | _ => None
              end
            else
              match simple_escape e with
              | Some c' => cons_char c' (read_string rest1)
              | None => None
              end
        end
      else cons_char c (read_string rest)
  end.

Fixpoint skip_spaces (s : str) : str :=
  match s with
  | [] => []
  | c :: s' => if N.eqb c 32 then skip_spaces s' else s
  end.

Definition is_digit (c : char) : bool := (N.leb 48 c && N.leb c 57)%bool.

Fixpoint read_digits (acc : N) (s : str) : N * str :=
  match s with
  | [] => (acc, [])
  | c :: s' =>
      if is_digit c then read_digits (acc * 10 + (c - 48))%N s' else (acc, s)
  end.

(** A value at the start of [s], and what follows it. The fuel bounds the
    number of values and members read. *)
Fixpoint read_value (fuel : nat) (s : str) : option (json * str) :=
  match fuel with
  | O => None
  | S fuel' =>
      match s with
      | [] => None
      | c :: rest =>
          if N.eqb c 34 then
            match read_string rest with
            | Some (t, r) => Some (JString t, r)
            | None => None
            end
          else if N.eqb c 123 then
            match skip_spaces rest with
            | [] => None
            | d :: rest' =>
                if N.eqb d 125 then Some (JObject [], rest')
                else read_members fuel' [] (d :: rest')
            end
          else if is_digit c then
            let (n, r) := read_digits 0 s in Some (JInt (Z.of_N n), r)
          else None
      end
  end
with read_members (fuel : nat) (acc : list (str * json)) (s : str)
    : option (json * str) :=
  match fuel with
  | O => None
  | S fuel' =>
      match s with
      | [] => None
      | q :: rest =>
          if N.eqb q 34 then
            match read_string rest with
            | None => None
            | Some (k, r1) =>
                match skip_spaces r1 with
                | [] => None
                | colon :: r2 =>
                    if N.eqb colon 58 then
                      match read_value fuel' (skip_spaces r2) with
                      | None => None
                      | Some (v, r3) =>
                          match skip_spaces r3 with
                          | [] => None
                          | e :: r4 =>
                              if N.eqb e 44 then
                                read_members fuel' (acc ++ [(k, v)])
                                             (skip_spaces r4)
                              else if N.eqb e 125 then
                                Some (JObject (acc ++ [(k, v)]), r4)
                              else None
                          end
                      end
                    else None
                end
            end
          else None
      end
  end.

(** [json.loads(text)], on this fragment. *)
Definition json_loads (text : str) : option json :=
  match read_value (length text) (skip_spaces text) with
  | Some (j, r) =>
      match skip_spaces r with
      | [] => Some j
      | _ :: _ => None
      end
  | None => None
  end.

(** A character of a Python string other than a high surrogate: written
    with [ensure_ascii], a high surrogate followed by a low one reads back
    as one character. *)
Definition no_high_surrogate (c : char) : Prop :=
  ((c < 0xD800 \/ 0xDC00 <= c) /\ c < 0x110000)%N.

(** What follows a number is no digit. *)
Definition no_digit_ahead (rest : str) : Prop :=
  match rest with
  | [] => True
  | c :: _ => is_digit c = false
  end.

(** The values that are read back as they were: strings and keys without
    high surrogates, natural numbers. *)
Fixpoint plain (j : json) : Prop :=
  match j with
  | JString s => Forall no_high_surrogate s
  | JInt n => 0 <= n
  | JObject fields =>
      fold_right and True
        (map (fun kv => Forall no_high_surrogate (fst kv) /\ plain (snd kv))
             fields)
  end.

Definition plain_members (fields : list (str * json)) : Prop :=
  fold_right and True
    (map (fun kv => Forall no_high_surrogate (fst kv) /\ plain (snd kv))
         fields).

(** The members of an object as [json_dumps] writes them between the
    braces. *)
Definition members_text (fields : list (str * json)) : str :=
  join (py ", ")
       (map (fun kv => json_quote (fst kv) ++ py ": " ++ json_dumps (snd kv))
            fields).

(* ================================================================== *)
(** * Part II: properties *)
(* ================================================================== *)

(** ** Strings *)

Lemma str_eqb_refl (a : str) : str_eqb a a = true.
Proof.
  induction a as [|x a IH]; simpl; [reflexivity|].
  rewrite N.eqb_refl. exact IH.
Qed.

Lemma str_eqb_eq (a b : str) : str_eqb a b = true <-> a = b.
Proof.
  split; [|intros ->; apply str_eqb_refl].
  revert b; induction a as [|x a IH]; intros [|y b]; simpl; try discriminate.
  - reflexivity.
  - intros H. apply andb_true_iff in H as [Hx Hr].
    apply N.eqb_eq in Hx. apply IH in Hr. congruence.
Qed.

Lemma str_eqb_neq (a b : str) : str_eqb a b = false <-> a <> b.
Proof.
  rewrite <- str_eqb_eq. destruct (str_eqb a b); split; congruence.
Qed.

Lemma strip_prefix_Some (p s r : str) :
  strip_prefix p s = Some r <-> s = p ++ r.
Proof.
  revert s; induction p as [|a p IH]; intros s; simpl.
  - split; congruence.
  - destruct s as [|b s]; [split; discriminate|].
    destruct (N.eqb_spec a b) as [->|Hab].
    + rewrite IH. split; congruence.
    + split; [discriminate|]. intros H; injection H; intros; congruence.
Qed.

Lemma strip_prefix_app (p r : str) : strip_prefix p (p ++ r) = Some r.
Proof. apply strip_prefix_Some. reflexivity. Qed.

(** ** The regular expressions *)

Lemma span_spec (f : char -> bool) (s g r : str) :
  span f s = (g, r) ->
  s = g ++ r /\ forallb f g = true
  /\ match r with [] => True | c :: _ => f c = false end.
Proof.
  revert g r; induction s as [|c s IH]; simpl; intros g r H.
  - injection H as <- <-. auto.
  - destruct (f c) eqn:Hc.
    + destruct (span f s) as [g' r'] eqn:Hs. injection H as <- <-.
      destruct (IH _ _ eq_refl) as (-> & Hg & Hr).
      simpl. rewrite Hc. auto.
    + injection H as <- <-. simpl. rewrite Hc. auto.
Qed.

Lemma span_app (f : char -> bool) (g : str) (c : char) (r : str) :
  forallb f g = true -> f c = false -> span f (g ++ c :: r) = (g, c :: r).
Proof.
  intros Hg Hc. induction g as [|x g IH]; simpl in *.
  - rewrite Hc. reflexivity.
  - apply andb_true_iff in Hg as [Hx Hg]. rewrite Hx, (IH Hg). reflexivity.
Qed.

Lemma not_backtick_forall (g : str) :
  forallb not_backtick g = true <-> Forall (fun c => c <> backtick) g.
Proof.
  rewrite forallb_forall, Forall_forall. unfold not_backtick.
  split; intros H c Hc; specialize (H c Hc).
  - apply negb_true_iff, N.eqb_neq in H. exact H.
  - apply negb_true_iff, N.eqb_neq. exact H.
Qed.

Lemma match_backticked_Some (lit s g : str) :
  match_backticked lit s = Some g <->
  exists post, s = lit ++ g ++ backtick :: post
               /\ g <> [] /\ Forall (fun c => c <> backtick) g.
Proof.
  unfold match_backticked. split.
  - destruct (strip_prefix lit s) as [rest|] eqn:Hp; [|discriminate].
    apply strip_prefix_Some in Hp. subst s.
    destruct (span not_backtick rest) as [g' r] eqn:Hs.
    apply span_spec in Hs as (-> & Hg & _).
    destruct g' as [|c g']; [discriminate|].
    destruct r as [|b r]; [discriminate|].
    destruct (N.eqb_spec b backtick) as [->|]; [|discriminate].
    intros H; injection H as <-. exists r.
    split; [reflexivity|]. split; [discriminate|].
    apply not_backtick_forall. exact Hg.
  - intros (post & -> & Hne & Hg).
    rewrite strip_prefix_app.
    rewrite span_app.
    + destruct g as [|c g]; [congruence|]. rewrite N.eqb_refl. reflexivity.
    + apply not_backtick_forall. exact Hg.
    + reflexivity.
Qed.

Lemma re_search_None (m : str -> option str) (s : str) :
  re_search m s = None <-> forall pre rest, s = pre ++ rest -> m rest = None.
Proof.
  induction s as [|c s IH]; simpl.
  - destruct (m []) eqn:Hm; split; try discriminate; auto.
    + intros H. rewrite (H [] [] eq_refl) in Hm. discriminate.
    + intros _ pre rest H. symmetry in H.
      apply app_eq_nil in H as [_ ->]. exact Hm.
  - destruct (m (c :: s)) eqn:Hm.
    + split; [discriminate|]. intros H.
      rewrite (H [] (c :: s) eq_refl) in Hm. discriminate.
    + rewrite IH. split.
      * intros H [|x pre] rest E; simpl in E.
        -- subst rest. exact Hm.
        -- injection E as _ E. exact (H pre rest E).
      * intros H pre rest E. apply (H (c :: pre) rest). simpl. congruence.
Qed.

Lemma re_search_Some (m : str -> option str) (s g : str) :
  re_search m s = Some g ->
  exists pre rest,
    s = pre ++ rest /\ m rest = Some g
    /\ forall pre' rest', s = pre' ++ rest' ->
         (length pre' < length pre)%nat -> m rest' = None.
Proof.
  induction s as [|c s IH]; simpl.
  - destruct (m []) eqn:Hm; [|discriminate]. intros H; injection H as ->.
    exists [], []. repeat split; auto. simpl. intros; lia.
  - destruct (m (c :: s)) eqn:Hm.
    + intros H; injection H as ->. exists [], (c :: s).
      repeat split; auto. simpl. intros; lia.
    + intros H. destruct (IH H) as (pre & rest & -> & Hg & Hmin).
      exists (c :: pre), rest. repeat split; auto.
      intros [|x pre'] rest' E Hlen; simpl in *.
      * subst rest'. exact Hm.
      * injection E as _ E. apply (Hmin pre' rest' E). lia.
Qed.

Lemma search_backticked_None (lit s : str) :
  re_search (match_backticked lit) s = None <-> ~ has_backticked lit s.
Proof.
  rewrite re_search_None. unfold has_backticked. split.
  - intros H (pre & g & post & E & Hne & Hg).
    assert (Hs : match_backticked lit (lit ++ g ++ backtick :: post) = Some g)
      by (apply match_backticked_Some; eauto).
    rewrite (H pre _ E) in Hs. discriminate.
  - intros H pre rest E.
    destruct (match_backticked lit rest) as [g|] eqn:Hm; [|reflexivity].
    exfalso. apply H.
    apply match_backticked_Some in Hm as (post & -> & Hne & Hg).
    exists pre, g, post. auto.
Qed.

Lemma search_backticked_Some (lit s g : str) :
  re_search (match_backticked lit) s = Some g ->
  exists pre post,
    s = pre ++ lit ++ g ++ backtick :: post
    /\ g <> [] /\ Forall (fun c => c <> backtick) g.
Proof.
  intros H. apply re_search_Some in H as (pre & rest & -> & Hm & _).
  apply match_backticked_Some in Hm as (post & -> & Hne & Hg).
  exists pre, post. auto.
Qed.

Lemma lazy_dots_Some (close s g : str) :
  lazy_dots close s = Some g ->
  exists post, s = g ++ close ++ post
               /\ g <> [] /\ Forall (fun c => c <> newline) g.
Proof.
  revert g; induction s as [|c s IH]; simpl; intros g; [discriminate|].
  destruct (N.eqb_spec c newline) as [|Hc]; [discriminate|].
  destruct (strip_prefix close s) as [post|] eqn:Hp.
  - intros H; injection H as <-. apply strip_prefix_Some in Hp. subst s.
    exists post. repeat split; [discriminate|]. constructor; auto.
  - destruct (lazy_dots close s) as [g'|]; simpl; [|discriminate].
    intros H; injection H as <-.
    destruct (IH g' eq_refl) as (post & -> & _ & Hg).
    exists post. repeat split; [discriminate|]. constructor; auto.
Qed.

Lemma lazy_dots_shortest (close s g : str) :
  lazy_dots close s = Some g ->
  forall g' post', s = g' ++ close ++ post' -> g' <> [] ->
    (length g <= length g')%nat.
Proof.
  revert g; induction s as [|c s IH]; simpl; intros g; [discriminate|].
  destruct (N.eqb c newline); [discriminate|].
  destruct (strip_prefix close s) as [post|] eqn:Hp.
  - intros H; injection H as <-. intros [|x g'] post' _ Hne; [congruence|].
    simpl. lia.
  - destruct (lazy_dots close s) as [g0|]; simpl; [|discriminate].
    intros H; injection H as <-.
    intros [|x g'] post' E Hne; [congruence|]. simpl in E. injection E as _ E.
    destruct g' as [|y g'].
    + simpl in E. subst s. rewrite strip_prefix_app in Hp. discriminate.
    + specialize (IH g0 eq_refl (y :: g') post' E). simpl in *.
      assert ((length g0 <= S (length g'))%nat) by (apply IH; discriminate).
      lia.
Qed.

Lemma lazy_dots_complete (close g post : str) :
  g <> [] -> Forall (fun c => c <> newline) g ->
  exists g', lazy_dots close (g ++ close ++ post) = Some g'.
Proof.
  induction g as [|c g IH]; intros Hne Hg; [congruence|].
  inversion Hg as [|? ? Hc Hg']; subst. simpl.
  destruct (N.eqb_spec c newline) as [|_]; [contradiction|].
  destruct (strip_prefix close (g ++ close ++ post)) eqn:Hp; [eauto|].
  destruct g as [|y g].
  - simpl in Hp. rewrite strip_prefix_app in Hp. discriminate.
  - destruct IH as [g' Hg0]; [discriminate|assumption|].
    rewrite Hg0. simpl. eauto.
Qed.

Lemma search_policies_None (s : str) :
  re_search policies_regex s = None <-> ~ has_policies s.
Proof.
  rewrite re_search_None.
  unfold has_policies, policies_segment, policies_regex, match_lazy. split.
  - intros H (pre & g & post & E & Hne & Hg).
    specialize (H pre _ E). rewrite strip_prefix_app in H.
    destruct (lazy_dots_complete (py "}`") g post Hne Hg) as [g' Hg'].
    congruence.
  - intros H pre rest E.
    destruct (strip_prefix _ rest) as [r|] eqn:Hp; [|reflexivity].
    destruct (lazy_dots _ r) as [g|] eqn:Hl; [|reflexivity].
    exfalso. apply H. apply strip_prefix_Some in Hp.
    apply lazy_dots_Some in Hl as (post & -> & Hne & Hg).
    exists pre, g, post. subst rest. auto.
Qed.

(** The group of the policies expression is the one of the leftmost
    segment, and the shortest one there. *)
Lemma search_policies_Some (s g : str) :
  re_search policies_regex s = Some g ->
  exists pre post,
    policies_segment s pre g post
    /\ forall pre' g' post', policies_segment s pre' g' post' ->
         (length pre <= length pre')%nat
         /\ (length pre' = length pre -> (length g <= length g')%nat).
Proof.
  intros H. apply re_search_Some in H as (pre & rest & E & Hm & Hmin).
  unfold policies_regex, match_lazy in Hm, Hmin.
  destruct (strip_prefix _ rest) as [r|] eqn:Hp; [|discriminate].
  apply strip_prefix_Some in Hp.
  pose proof (lazy_dots_shortest _ _ _ Hm) as Hshort.
  apply lazy_dots_Some in Hm as (post & Er & Hne & Hg).
  exists pre, post. split.
  - unfold policies_segment. subst. auto.
  - intros pre' g' post' (E' & Hne' & Hg'). split.
    + destruct (Nat.le_gt_cases (length pre) (length pre')) as [|Hlt]; [assumption|].
      specialize (Hmin pre' _ E' Hlt). rewrite strip_prefix_app in Hmin.
      destruct (lazy_dots_complete (py "}`") g' post' Hne' Hg') as [g0 Hg0].
      congruence.
    + intros Hlen. rewrite E in E'.
      assert (Hpre : pre = pre').
      { apply (f_equal (firstn (length pre))) in E'.
        rewrite firstn_app, Nat.sub_diag, firstn_all in E'. simpl in E'.
        rewrite <- Hlen in E'.
        rewrite firstn_app, Nat.sub_diag, firstn_all in E'. simpl in E'.
        rewrite !app_nil_r in E'. exact E'. }
      subst pre'. apply app_inv_head in E'. subst rest.
      apply app_inv_head in E'. subst r.
      exact (Hshort g' post' E' Hne').
Qed.

(** ** [strip] and [split] *)

Lemma lstrip_spec (chars s : str) :
  exists l, s = l ++ py_lstrip chars s
            /\ forallb (in_chars chars) l = true
            /\ head_kept chars (py_lstrip chars s).
Proof.
  induction s as [|c s (l & E & Hl & Hh)]; simpl.
  - exists []. auto.
  - destruct (in_chars chars c) eqn:Hc.
    + exists (c :: l). simpl. rewrite Hc, Hl. repeat split; [congruence|exact Hh].
    + exists []. simpl. auto.
Qed.

Lemma lstrip_fixed (chars s : str) :
  head_kept chars s -> py_lstrip chars s = s.
Proof.
  destruct s as [|c s]; simpl; [reflexivity|]. intros ->. reflexivity.
Qed.

Lemma lstrip_idem (chars s : str) :
  py_lstrip chars (py_lstrip chars s) = py_lstrip chars s.
Proof.
  destruct (lstrip_spec chars s) as (_ & _ & _ & H).
  apply lstrip_fixed, H.
Qed.

Lemma rstrip_idem (chars s : str) :
  py_rstrip chars (py_rstrip chars s) = py_rstrip chars s.
Proof.
  unfold py_rstrip. rewrite rev_involutive, lstrip_idem. reflexivity.
Qed.

Lemma rstrip_prefix (chars s : str) :
  exists r, s = py_rstrip chars s ++ r /\ forallb (in_chars chars) r = true.
Proof.
  unfold py_rstrip.
  destruct (lstrip_spec chars (rev s)) as (l & E & Hl & _).
  exists (rev l). split.
  - rewrite <- rev_app_distr, <- E, rev_involutive. reflexivity.
  - rewrite forallb_forall in *. intros c Hc. apply Hl, in_rev, Hc.
Qed.

Lemma rstrip_head_kept (chars s : str) :
  head_kept chars s -> head_kept chars (py_rstrip chars s).
Proof.
  destruct (rstrip_prefix chars s) as (r & E & _).
  destruct (py_rstrip chars s) as [|c t]; simpl; [trivial|].
  rewrite E. simpl. trivial.
Qed.

Lemma strip_lstrip (chars s : str) :
  py_lstrip chars (py_strip chars s) = py_strip chars s.
Proof.
  unfold py_strip. apply lstrip_fixed, rstrip_head_kept.
  destruct (lstrip_spec chars s) as (_ & _ & _ & H). exact H.
Qed.

Lemma strip_rstrip (chars s : str) :
  py_rstrip chars (py_strip chars s) = py_strip chars s.
Proof. unfold py_strip. apply rstrip_idem. Qed.

(** [strip] removes a run of [chars] at each end and nothing else. *)
Lemma strip_spec (chars s : str) :
  exists l r,
    s = l ++ py_strip chars s ++ r
    /\ forallb (in_chars chars) l = true
    /\ forallb (in_chars chars) r = true
    /\ head_kept chars (py_strip chars s)
    /\ head_kept chars (rev (py_strip chars s)).
Proof.
  destruct (lstrip_spec chars s) as (l & El & Hl & Hh).
  destruct (rstrip_prefix chars (py_lstrip chars s)) as (r & Er & Hr).
  exists l, r. unfold py_strip. repeat split; auto.
  - rewrite <- Er. exact El.
  - apply rstrip_head_kept, Hh.
  - unfold py_rstrip. rewrite rev_involutive.
    destruct (lstrip_spec chars (rev (py_lstrip chars s))) as (_ & _ & _ & H).
    exact H.
Qed.

Lemma set_first_fixed {A} (f : A -> A) (l : list A) :
  Forall (fun x => f x = x) l -> set_first f l = l.
Proof. destruct 1; simpl; congruence. Qed.

Lemma set_last_fixed {A} (f : A -> A) (l : list A) :
  Forall (fun x => f x = x) l -> set_last f l = l.
Proof.
  induction 1 as [|x l Hx Hl IH]; simpl; [reflexivity|].
  destruct l; congruence.
Qed.

Lemma find_sep_Some (sep s a b : str) :
  find_sep sep s = Some (a, b) -> s = a ++ sep ++ b.
Proof.
  revert a; induction s as [|c s IH]; intros a; simpl.
  - destruct (strip_prefix sep []) eqn:Hp; [|discriminate].
    intros H; injection H as <- <-. apply strip_prefix_Some in Hp. exact Hp.
  - destruct (strip_prefix sep (c :: s)) eqn:Hp.
    + intros H; injection H as <- <-. apply strip_prefix_Some in Hp. exact Hp.
    + destruct (find_sep sep s) as [[a' b']|]; [|discriminate].
      intros H; injection H as <- <-. rewrite (IH a' eq_refl). reflexivity.
Qed.

Lemma split_loop_nonempty (sep : str) (n : nat) (s : str) :
  split_loop sep n s <> [].
Proof.
  destruct n; simpl; [discriminate|].
  destruct (find_sep sep s) as [[a b]|]; discriminate.
Qed.

(** Joining the pieces with the separator gives the string back. *)
Lemma join_split_loop (sep : str) (n : nat) (s : str) :
  join sep (split_loop sep n s) = s.
Proof.
  revert s; induction n as [|n IH]; intros s; simpl; [reflexivity|].
  destruct (find_sep sep s) as [[a b]|] eqn:Hf; [|reflexivity].
  apply find_sep_Some in Hf. specialize (IH b).
  pose proof (split_loop_nonempty sep n b) as Hne.
  destruct (split_loop sep n b) as [|x l]; [congruence|].
  cbn [join]. cbn [join] in IH. rewrite IH. symmetry. exact Hf.
Qed.

Lemma find_sep_nil (sep : str) : sep <> [] -> find_sep sep [] = None.
Proof. destruct sep; [congruence|reflexivity]. Qed.

(** Past the length of the string the bound on the cuts plays no part,
    which is what [maxsplit = -1] stands for. *)
Lemma split_loop_unbounded (sep : str) (n m : nat) (s : str) :
  sep <> [] -> (length s <= n)%nat -> (length s <= m)%nat ->
  split_loop sep n s = split_loop sep m s.
Proof.
  intros Hsep. revert m s; induction n as [|n IH]; intros m s Hn Hm.
  - destruct s; [|simpl in Hn; lia].
    destruct m; cbn [split_loop]; [reflexivity|].
    rewrite find_sep_nil by exact Hsep. reflexivity.
  - destruct m as [|m].
    + destruct s; [|simpl in Hm; lia].
      cbn [split_loop]. rewrite find_sep_nil by exact Hsep. reflexivity.
    + cbn [split_loop]. destruct (find_sep sep s) as [[a b]|] eqn:Hf; [|reflexivity].
      apply find_sep_Some in Hf.
      assert (Hb : (length b < length s)%nat).
      { rewrite Hf, !length_app. destruct sep; [congruence|]. simpl. lia. }
      f_equal. apply IH; lia.
Qed.

Lemma find_sep_unfold (sep s : str) :
  find_sep sep s =
  match strip_prefix sep s with
  | Some rest => Some ([], rest)
  | None =>
      match s with
      | [] => None
      | c :: s' =>
          match find_sep sep s' with
          | Some (a, b) => Some (c :: a, b)
          | None => None
          end
      end
  end.
Proof. destruct s; reflexivity. Qed.

Lemma find_sep_complete (sep a b : str) :
  exists a' b', find_sep sep (a ++ sep ++ b) = Some (a', b').
Proof.
  induction a as [|x a (a' & b' & IH)].
  - simpl app. rewrite find_sep_unfold, strip_prefix_app. eauto.
  - rewrite find_sep_unfold.
    destruct (strip_prefix sep ((x :: a) ++ sep ++ b)); [eauto|].
    cbn [app]. rewrite IH. eauto.
Qed.

Lemma head_kept_dquote (p : str) :
  head_kept [dquote] p -> hd_error p <> Some dquote.
Proof.
  destruct p as [|c p]; simpl; [discriminate|].
  rewrite orb_false_r. intros H E. injection E as ->.
  rewrite N.eqb_refl in H. discriminate.
Qed.

Lemma find_sep_None (sep s : str) :
  find_sep sep s = None -> forall a b, s <> a ++ sep ++ b.
Proof.
  intros H a b E. subst s.
  destruct (find_sep_complete sep a b) as (a' & b' & H'). congruence.
Qed.

(** The separator found is the leftmost one. *)
Lemma find_sep_leftmost (sep s a b : str) :
  find_sep sep s = Some (a, b) ->
  forall a' b', s = a' ++ sep ++ b' -> (length a <= length a')%nat.
Proof.
  revert a; induction s as [|c s IH]; intros a; rewrite find_sep_unfold.
  - destruct (strip_prefix sep []); [|discriminate].
    intros H; injection H as <- <-. simpl. intros; lia.
  - destruct (strip_prefix sep (c :: s)) eqn:Hp.
    + intros H; injection H as <- <-. simpl. intros; lia.
    + destruct (find_sep sep s) as [[a0 b0]|] eqn:Hf; [|discriminate].
      intros H; injection H as <- <-. intros [|x a'] b' E.
      * simpl in E. rewrite E, strip_prefix_app in Hp. discriminate.
      * simpl in E. injection E as _ E. simpl.
        specialize (IH a0 eq_refl a' b' E). lia.
Qed.

Lemma split_loop_Split (sep : str) (n : nat) (s : str) :
  sep <> [] -> (length s <= n)%nat -> Split sep s (split_loop sep n s).
Proof.
  intros Hsep. revert s; induction n as [|n IH]; intros s Hn.
  - destruct s; [|simpl in Hn; lia]. cbn [split_loop]. apply Split_last.
    intros a b E. symmetry in E. apply app_eq_nil in E as [_ E].
    apply app_eq_nil in E as [E _]. contradiction.
  - cbn [split_loop]. destruct (find_sep sep s) as [[a b]|] eqn:Hf.
    + pose proof (find_sep_Some _ _ _ _ Hf) as E.
      apply (Split_cut sep s a b); [exact E|apply (find_sep_leftmost _ _ _ _ Hf)|].
      apply IH. rewrite E, !length_app in Hn.
      destruct sep; [congruence|]. simpl in Hn. lia.
    + apply Split_last. apply find_sep_None, Hf.
Qed.

Lemma app_eq_length {A} (a a' b b' : list A) :
  a ++ b = a' ++ b' -> length a = length a' -> a = a' /\ b = b'.
Proof.
  revert a'; induction a as [|x a IH]; intros [|y a'] E Hlen;
    simpl in *; try discriminate.
  - auto.
  - injection E as -> E. injection Hlen as Hlen.
    destruct (IH a' E Hlen) as [-> ->]. auto.
Qed.

(** The pieces are determined by the string. *)
Lemma Split_unique (sep s : str) (p1 p2 : list str) :
  Split sep s p1 -> Split sep s p2 -> p1 = p2.
Proof.
  intros H1. revert p2.
  induction H1 as [s Hno|s a b pieces E Hmin _ IH]; intros p2 H2.
  - destruct H2 as [s _|s a b pieces E _ _]; [reflexivity|].
    exfalso. apply (Hno a b E).
  - destruct H2 as [s Hno|s a0 b0 pieces0 E0 Hmin0 Hrest0].
    + exfalso. apply (Hno a b E).
    + pose proof (Hmin a0 b0 E0) as Hle. pose proof (Hmin0 a b E) as Hge.
      rewrite E in E0.
      destruct (app_eq_length _ _ _ _ E0 ltac:(lia)) as [<- E1].
      apply app_inv_head in E1. subst b0.
      f_equal. apply IH, Hrest0.
Qed.

Lemma py_split_Split (sep s : str) :
  sep <> [] -> Split sep s (py_split sep None s).
Proof. intros H. apply split_loop_Split; [exact H|lia]. Qed.

Lemma strip_unquoted (piece : str) : unquoted piece (py_strip [dquote] piece).
Proof.
  destruct (strip_spec [dquote] piece) as (l & r & E & Hl & Hr & H1 & H2).
  assert (Hq : forall x, forallb (in_chars [dquote]) x = true ->
                         Forall (eq dquote) x).
  { intros x Hx. apply Forall_forall. intros c Hc.
    rewrite forallb_forall in Hx. specialize (Hx c Hc). simpl in Hx.
    rewrite orb_false_r in Hx. apply N.eqb_eq in Hx. congruence. }
  exists l, r. split; [exact E|]. split; [auto|]. split; [auto|].
  split; apply head_kept_dquote; assumption.
Qed.

Lemma Forall2_map_unquoted (pieces : list str) :
  Forall2 unquoted pieces (map (py_strip [dquote]) pieces).
Proof.
  induction pieces as [|x l IH]; simpl; constructor;
    [apply strip_unquoted|exact IH].
Qed.

(** ** Extraction from a row *)

Lemma extract_policies_eq (detail : str) :
  extract_policies detail =
  match re_search policies_regex detail with
  | Some g => map (py_strip [dquote]) (py_split quoted_comma None g)
  | None => []
  end.
Proof.
  unfold extract_policies.
  destruct (re_search policies_regex detail) as [g|]; [|reflexivity].
  destruct (map _ _) as [|p ps] eqn:E; [reflexivity|]. rewrite <- E.
  assert (Hl : Forall (fun x => py_lstrip [dquote] x = x)
                 (map (py_strip [dquote]) (py_split quoted_comma None g))).
  { apply Forall_forall. intros x Hx. apply in_map_iff in Hx as (y & <- & _).
    apply strip_lstrip. }
  assert (Hr : Forall (fun x => py_rstrip [dquote] x = x)
                 (map (py_strip [dquote]) (py_split quoted_comma None g))).
  { apply Forall_forall. intros x Hx. apply in_map_iff in Hx as (y & <- & _).
    apply strip_rstrip. }
  rewrite (set_first_fixed _ _ Hl). apply set_last_fixed, Hr.
Qed.

Lemma extract_policies_nonempty (detail g : str) :
  re_search policies_regex detail = Some g -> extract_policies detail <> [].
Proof.
  intros H. rewrite extract_policies_eq, H. unfold py_split.
  pose proof (split_loop_nonempty quoted_comma (length g) g) as Hne.
  destruct (split_loop _ _ _); [congruence|discriminate].
Qed.

(** A row with a [detail] text is parsed without an exception. *)
Lemma parse_row_detail (r : row) (detail : str) :
  getitem r (py "detail") = Ok (Some detail) ->
  parse_row r = Ok (extract detail).
Proof. intros H. unfold parse_row. rewrite H. reflexivity. Qed.

(** C1. A row whose [detail] text has none of the four patterns (no
    [Table `public.X`], no [for role `X`], no [for action `X`] and no
    [Policies include `{...}`]) is parsed without an exception, into the
    issue whose table, role and action are the literal [Unknown], whose
    policy list is empty and whose policy count is 0. *)
Theorem extraction_defaults (r : row) (detail : str) :
  getitem r (py "detail") = Ok (Some detail) ->
  ~ has_backticked (py "Table `public.") detail ->
  ~ has_backticked (py "for role `") detail ->
  ~ has_backticked (py "for action `") detail ->
  ~ has_policies detail ->
  parse_row r = Ok unknown_issue.
Proof.
  intros Hd Ht Hr Ha Hp. unfold parse_row. rewrite Hd. simpl.
  apply search_backticked_None in Ht, Hr, Ha. apply search_policies_None in Hp.
  unfold extract, extract_policies, table_regex, role_regex, action_regex.
  rewrite Ht, Hr, Ha, Hp. reflexivity.
Qed.

Lemma extraction_defaults_witness :
  parse_row [(py "name", Some (py "multiple_permissive_policies"));
             (py "detail", Some (py "no structured text in this row"))]
  = Ok unknown_issue.
Proof.
  apply (extraction_defaults _ (py "no structured text in this row")).
  - reflexivity.
  - apply search_backticked_None. vm_compute. reflexivity.
  - apply search_backticked_None. vm_compute. reflexivity.
  - apply search_backticked_None. vm_compute. reflexivity.
  - apply search_policies_None. vm_compute. reflexivity.
Defined.

(** C6. When the [detail] text has a [Policies include `{...}`] segment,
    the policy list comes from the content [g] of the leftmost such segment
    (the shortest one there): [g] is cut at each quote-comma-quote
    separator, from the left, and every piece gives one policy, the piece
    without the double quotes at its two ends. Without a segment the list
    is empty, and the policy count is the length of the list in every
    case. *)
Theorem policies_extraction (detail : str) :
  (has_policies detail ->
   exists pre g post pieces,
     policies_segment detail pre g post
     /\ (forall pre' g' post', policies_segment detail pre' g' post' ->
           (length pre <= length pre')%nat
           /\ (length pre' = length pre -> (length g <= length g')%nat))
     /\ Split quoted_comma g pieces
     /\ Forall2 unquoted pieces (policies (extract detail)))
  /\ (~ has_policies detail -> policies (extract detail) = [])
  /\ policy_count (extract detail)
     = Z.of_nat (length (policies (extract detail))).
Proof.
  split; [|split].
  - intros Hp.
    destruct (re_search policies_regex detail) as [g|] eqn:Hs.
    + destruct (search_policies_Some _ _ Hs) as (pre & post & Hseg & Hmin).
      exists pre, g, post, (py_split quoted_comma None g).
      split; [exact Hseg|]. split; [exact Hmin|]. split.
      * apply py_split_Split. discriminate.
      * cbn [extract policies]. rewrite extract_policies_eq, Hs.
        apply Forall2_map_unquoted.
    + apply search_policies_None in Hs. contradiction.
  - intros Hp. apply search_policies_None in Hp.
    simpl. rewrite extract_policies_eq, Hp. reflexivity.
  - reflexivity.
Qed.

(** ** Dictionaries with a default *)

Lemma fold_add_zsum (l : list Z) (a : Z) : fold_left Z.add l a = a + zsum l.
Proof.
  revert a; induction l as [|x l IH]; intros a; simpl; [lia|].
  rewrite IH. lia.
Qed.

Lemma py_sum_zsum (l : list Z) : py_sum l = zsum l.
Proof. unfold py_sum. rewrite fold_add_zsum. lia. Qed.

Lemma zsum_app (l1 l2 : list Z) : zsum (l1 ++ l2) = zsum l1 + zsum l2.
Proof. induction l1 as [|x l1 IH]; simpl; lia. Qed.

Lemma existsb_str_eqb (k : str) (ks : list str) :
  existsb (str_eqb k) ks = true <-> In k ks.
Proof.
  rewrite existsb_exists. split.
  - intros (x & Hx & E). apply str_eqb_eq in E. congruence.
  - intros H. exists k. split; [exact H|apply str_eqb_refl].
Qed.

Lemma sumv_dd_modify {V} (g : V -> Z) (default : V) (f : V -> V) (k : str)
    (d : list (str * V)) (delta : Z) :
  g default = 0 -> (forall v, g (f v) = g v + delta) ->
  sumv g (dd_modify default f k d) = sumv g d + delta.
Proof.
  intros H0 Hf. unfold sumv.
  induction d as [|[k' v] d IH]; simpl.
  - rewrite Hf, H0. lia.
  - destruct (str_eqb k k'); simpl; [rewrite Hf|rewrite IH]; lia.
Qed.

Lemma keys_dd_modify {V} (default : V) (f : V -> V) (k : str)
    (d : list (str * V)) :
  map fst (dd_modify default f k d) = add_key k (map fst d).
Proof.
  unfold add_key. induction d as [|[k' v] d IH]; simpl; [reflexivity|].
  destruct (str_eqb k k'); simpl; [reflexivity|].
  rewrite IH. destruct (existsb (str_eqb k) (map fst d)); reflexivity.
Qed.

Lemma lookup_dd_modify {V} (default : V) (f : V -> V) (k k' : str)
    (d : list (str * V)) :
  lookup k' (dd_modify default f k d) =
  if str_eqb k' k
  then Some (f (match lookup k d with Some v => v | None => default end))
  else lookup k' d.
Proof.
  induction d as [|[k0 v] d IH]; simpl.
  - destruct (str_eqb k' k); reflexivity.
  - destruct (str_eqb k k0) eqn:E0; simpl.
    + apply str_eqb_eq in E0. subst k0.
      destruct (str_eqb k' k); reflexivity.
    + rewrite IH. destruct (str_eqb k' k) eqn:E1; [|reflexivity].
      apply str_eqb_eq in E1. subst k'. rewrite E0. reflexivity.
Qed.

Lemma lookup_In {V} (k : str) (v : V) (d : list (str * V)) :
  NoDup (map fst d) -> In (k, v) d -> lookup k d = Some v.
Proof.
  induction d as [|[k' v'] d IH]; simpl; intros Hnd Hin; [contradiction|].
  inversion Hnd as [|? ? Hni Hnd']; subst.
  destruct Hin as [E|Hin].
  - injection E as -> ->. rewrite str_eqb_refl. reflexivity.
  - destruct (str_eqb k k') eqn:E.
    + apply str_eqb_eq in E. subst k'. exfalso. apply Hni.
      apply in_map_iff. exists (k, v). auto.
    + auto.
Qed.

Lemma add_key_In (k x : str) (ks : list str) :
  In x (add_key k ks) <-> x = k \/ In x ks.
Proof.
  unfold add_key. destruct (existsb (str_eqb k) ks) eqn:E.
  - apply existsb_str_eqb in E. split; [auto|]. intros [->|H]; auto.
  - rewrite in_app_iff. simpl. intuition.
Qed.

Lemma add_key_NoDup (k : str) (ks : list str) :
  NoDup ks -> NoDup (add_key k ks).
Proof.
  unfold add_key. destruct (existsb (str_eqb k) ks) eqn:E; [auto|].
  intros H. apply NoDup_app; [exact H|repeat constructor; simpl; tauto|].
  intros x Hx [<-|[]].
  apply existsb_str_eqb in Hx. congruence.
Qed.

Lemma add_key_idem (k : str) (ks : list str) :
  add_key k (add_key k ks) = add_key k ks.
Proof.
  unfold add_key at 1.
  assert (H : existsb (str_eqb k) (add_key k ks) = true).
  { apply existsb_str_eqb, add_key_In. auto. }
  rewrite H. reflexivity.
Qed.

(** ** Grouping *)

Lemma keys_group_step (sep : str) (ts : list (str * Summary)) (i : Issue) :
  map fst (group_step sep ts i) = add_key (table i) (map fst ts).
Proof.
  unfold group_step. rewrite !keys_dd_modify. apply add_key_idem.
Qed.

Lemma totals_group_step (sep : str) (ts : list (str * Summary)) (i : Issue) :
  sumv total_issues (group_step sep ts i) = sumv total_issues ts + 1.
Proof.
  unfold group_step.
  rewrite (sumv_dd_modify total_issues _ _ _ _ 0); [|reflexivity|simpl; lia].
  rewrite (sumv_dd_modify total_issues _ _ _ _ 1); [lia|reflexivity|reflexivity].
Qed.

Lemma totals_fold (sep : str) (issues : list Issue) (ts : list (str * Summary)) :
  sumv total_issues (fold_left (group_step sep) issues ts)
  = sumv total_issues ts + Z.of_nat (length issues).
Proof.
  revert ts; induction issues as [|i issues IH]; intros ts; simpl length.
  - simpl. lia.
  - cbn [fold_left]. rewrite IH, totals_group_step. lia.
Qed.

Lemma group_total (sep : str) (issues : list Issue) :
  py_sum (map (fun ts => total_issues (snd ts)) (group sep issues))
  = Z.of_nat (length issues).
Proof.
  rewrite py_sum_zsum. unfold group.
  pose proof (totals_fold sep issues []) as H. unfold sumv in H.
  rewrite H. simpl. lia.
Qed.

Lemma parse_rows_length (rows : list row) (issues : list Issue) :
  parse_rows rows = Ok issues -> length issues = length rows.
Proof.
  revert issues; induction rows as [|r rows IH]; intros issues; simpl.
  - intros H; injection H as <-. reflexivity.
  - destruct (parse_row r) as [i|]; simpl; [|discriminate].
    destruct (parse_rows rows) as [is'|]; simpl; [|discriminate].
    intros H; injection H as <-. simpl. f_equal. apply IH. reflexivity.
Qed.

(** C3. In both scripts (the separator of the inner key is the only
    difference), the [total_issues] counts of the tables of
    [table_summary] add up to the number of rows read. *)
Theorem grouping_partitions_rows (sep : str) (rows : list row)
    (issues : list Issue) :
  parse_rows rows = Ok issues ->
  py_sum (map (fun ts => total_issues (snd ts)) (group sep issues))
  = Z.of_nat (length rows).
Proof.
  intros H. rewrite group_total, (parse_rows_length _ _ H). reflexivity.
Qed.

(** ** Sorting *)

Section SortFacts.
Context {A K : Type} (key : A -> K) (lt : K -> K -> bool).

Lemma insert_stable_perm (x : A) (l : list A) :
  Permutation (insert_stable key lt x l) (x :: l).
Proof.
  induction l as [|y l IH]; simpl; [reflexivity|].
  destruct (lt (key y) (key x)); [|reflexivity].
  rewrite IH. apply perm_swap.
Qed.

Lemma sort_stable_perm (l : list A) : Permutation (sort_stable key lt l) l.
Proof.
  induction l as [|x l IH]; simpl; [reflexivity|].
  rewrite insert_stable_perm. constructor. exact IH.
Qed.

Lemma py_sort_perm (reverse : bool) (l : list A) :
  Permutation (py_sort key lt reverse l) l.
Proof.
  destruct reverse; simpl; [|apply sort_stable_perm].
  rewrite <- Permutation_rev, sort_stable_perm, <- Permutation_rev.
  reflexivity.
Qed.

(** A class [p] of elements none of which is below another keeps its
    order. *)
Section Stable.
Variable p : A -> bool.
Hypothesis p_class :
  forall x y, p x = true -> p y = true -> lt (key y) (key x) = false.



End Stable.

Section Sorted.
Hypothesis lt_asym : forall a b, lt a b = true -> lt b a = false.
Hypothesis ge_trans :
  forall a b c, lt b a = false -> lt c b = false -> lt c a = false.

Lemma insert_stable_sorted (x : A) (l : list A) :
  StronglySorted (not_above key lt) l ->
  StronglySorted (not_above key lt) (insert_stable key lt x l).
Proof.
  induction 1 as [|y l Hs IH Hy]; simpl.
  - repeat constructor.
  - destruct (lt (key y) (key x)) eqn:Hlt.
    + constructor; [exact IH|].
      apply Forall_forall. intros z Hz.
      apply (Permutation_in _ (insert_stable_perm x l)) in Hz.
      destruct Hz as [<-|Hz].
      * apply lt_asym, Hlt.
      * rewrite Forall_forall in Hy. apply Hy, Hz.
    + constructor; [constructor; assumption|].
      constructor; [exact Hlt|].
      apply Forall_forall. intros z Hz.
      rewrite Forall_forall in Hy. specialize (Hy z Hz).
      unfold not_above in *. apply (ge_trans _ (key y)); assumption.
Qed.

Lemma sort_stable_sorted (l : list A) :
  StronglySorted (not_above key lt) (sort_stable key lt l).
Proof.
  induction l as [|x l IH]; simpl; [constructor|].
  apply insert_stable_sorted, IH.
Qed.



End Sorted.
End SortFacts.



(** ** Order of first occurrence *)

Lemma str_eqb_sym (a b : str) : str_eqb a b = str_eqb b a.
Proof.
  destruct (str_eqb b a) eqn:E.
  - apply str_eqb_eq in E. subst. apply str_eqb_refl.
  - apply str_eqb_neq in E. apply str_eqb_neq. congruence.
Qed.

Lemma nub_In (x : str) (l : list str) : In x (nub l) <-> In x l.
Proof.
  induction l as [|y l IH]; simpl; [reflexivity|].
  rewrite filter_In, IH, negb_true_iff, str_eqb_neq.
  destruct (list_eq_dec N.eq_dec y x) as [->|Hne]; [tauto|].
  intuition congruence.
Qed.

Lemma nub_NoDup (l : list str) : NoDup (nub l).
Proof.
  induction l as [|y l IH]; simpl; constructor.
  - rewrite filter_In, negb_true_iff, str_eqb_neq. tauto.
  - apply NoDup_filter, IH.
Qed.

Lemma filter_filter_weaker {A} (p q : A -> bool) (l : list A) :
  (forall x, p x = true -> q x = true) ->
  filter p (filter q l) = filter p l.
Proof.
  intros H. induction l as [|x l IH]; simpl; [reflexivity|].
  destruct (q x) eqn:Hq; simpl; rewrite IH; [reflexivity|].
  destruct (p x) eqn:Hp; [|reflexivity].
  rewrite (H x Hp) in Hq. discriminate.
Qed.

Lemma fold_add_key (l acc : list str) :
  fold_left (fun ks k => add_key k ks) l acc
  = acc ++ filter (fun x => negb (existsb (str_eqb x) acc)) (nub l).
Proof.
  revert acc; induction l as [|x l IH]; intros acc; simpl.
  - rewrite app_nil_r. reflexivity.
  - rewrite IH. unfold add_key.
    destruct (existsb (str_eqb x) acc) eqn:E; simpl.
    + f_equal. symmetry. apply filter_filter_weaker.
      intros y Hy. apply negb_true_iff. apply negb_true_iff in Hy.
      apply str_eqb_neq. intros ->. congruence.
    + rewrite <- app_assoc. simpl. f_equal. f_equal.
      rewrite <- (filter_filter_weaker
                    (fun y => negb (existsb (str_eqb y) (acc ++ [x])))
                    (fun y => negb (str_eqb y x)) (nub l)).
      * apply filter_ext_in. intros y Hy. apply filter_In in Hy as [_ Hy].
        apply negb_true_iff in Hy.
        rewrite existsb_app. simpl. rewrite Hy, !orb_false_r. reflexivity.
      * intros y. rewrite existsb_app. simpl. rewrite orb_false_r.
        destruct (str_eqb y x); [|reflexivity].
        rewrite orb_true_r. discriminate.
Qed.

Lemma keys_fold (sep : str) (issues : list Issue) (ts : list (str * Summary)) :
  map fst (fold_left (group_step sep) issues ts)
  = fold_left (fun ks k => add_key k ks) (map table issues) (map fst ts).
Proof.
  revert ts; induction issues as [|i issues IH]; intros ts; simpl; [reflexivity|].
  rewrite IH, keys_group_step. reflexivity.
Qed.

(** The tables of [table_summary] are those of the issues, in the order of
    their first occurrences. *)
Lemma keys_group (sep : str) (issues : list Issue) :
  map fst (group sep issues) = nub (map table issues).
Proof.
  unfold group. rewrite keys_fold, fold_add_key. simpl.
  induction (nub (map table issues)) as [|x l IH]; simpl; congruence.
Qed.


(** ** What grouping records for a table *)

Lemma get_group_step (sep : str) (ts : list (str * Summary)) (i : Issue)
    (t : str) :
  get_summary t (group_step sep ts i) =
  if str_eqb t (table i)
  then append_conflict (role_action_key sep i)
         (mkConflict (policies i) (policy_count i))
         (incr_total (get_summary (table i) ts))
  else get_summary t ts.
Proof.
  unfold get_summary, group_step. rewrite !lookup_dd_modify, str_eqb_refl.
  destruct (str_eqb t (table i)); reflexivity.
Qed.

Lemma all_counts_append (key : str) (c : Conflict) (s : Summary) (x : Z) :
  In x (all_counts (append_conflict key c s))
  <-> In x (all_counts s) \/ x = c_count c.
Proof.
  unfold all_counts, append_conflict. simpl.
  induction (role_actions s) as [|[k cs] d IH]; simpl.
  - intuition.
  - destruct (str_eqb key k); simpl.
    + rewrite !in_app_iff, map_app, in_app_iff. simpl. intuition.
    + rewrite !in_app_iff, IH. intuition.
Qed.

Lemma zsum_all_counts_append (key : str) (c : Conflict) (s : Summary) :
  zsum (all_counts (append_conflict key c s))
  = zsum (all_counts s) + c_count c.
Proof.
  unfold all_counts, append_conflict. simpl.
  induction (role_actions s) as [|[k cs] d IH]; simpl.
  - lia.
  - destruct (str_eqb key k); simpl.
    + rewrite !zsum_app, map_app, zsum_app. simpl. lia.
    + rewrite !zsum_app, IH. lia.
Qed.

Lemma total_fold (sep : str) (t : str) (issues : list Issue)
    (ts : list (str * Summary)) :
  total_issues (get_summary t (fold_left (group_step sep) issues ts))
  = total_issues (get_summary t ts) + Z.of_nat (length (issues_of t issues)).
Proof.
  revert ts; induction issues as [|i issues IH]; intros ts.
  - simpl. lia.
  - cbn [fold_left]. rewrite IH, get_group_step. unfold issues_of. simpl filter.
    rewrite (str_eqb_sym (table i) t).
    destruct (str_eqb t (table i)) eqn:E.
    + apply str_eqb_eq in E. subst t. simpl length. simpl total_issues.
      unfold issues_of. lia.
    + reflexivity.
Qed.

Lemma counts_fold (sep : str) (t : str) (issues : list Issue)
    (ts : list (str * Summary)) (x : Z) :
  In x (all_counts (get_summary t (fold_left (group_step sep) issues ts)))
  <-> In x (all_counts (get_summary t ts))
      \/ exists i, In i (issues_of t issues) /\ policy_count i = x.
Proof.
  revert ts; induction issues as [|i issues IH]; intros ts.
  - simpl. split; [auto|]. intros [H|(i & [] & _)]. exact H.
  - cbn [fold_left]. rewrite IH, get_group_step. unfold issues_of. simpl filter.
    rewrite (str_eqb_sym (table i) t).
    destruct (str_eqb t (table i)) eqn:E.
    + apply str_eqb_eq in E. subst t. rewrite all_counts_append.
      simpl. split.
      * intros [[H| ->]|(j & Hj & Ej)]; eauto 6.
      * intros [H|(j & [<-|Hj] & Ej)]; eauto 6.
    + reflexivity.
Qed.

Lemma group_NoDup (sep : str) (issues : list Issue) :
  NoDup (map fst (group sep issues)).
Proof. rewrite keys_group. apply nub_NoDup. Qed.

(** The entry of a table in [table_summary]: its number of issues and the
    policy counts of its conflicts. *)
Lemma group_entry (sep : str) (issues : list Issue) (t : str) (s : Summary) :
  In (t, s) (group sep issues) ->
  In t (map table issues)
  /\ total_issues s = Z.of_nat (length (issues_of t issues))
  /\ (forall x, In x (all_counts s)
                <-> exists i, In i (issues_of t issues) /\ policy_count i = x).
Proof.
  intros Hin.
  assert (Hs : s = get_summary t (group sep issues)).
  { unfold get_summary. rewrite (lookup_In t s); [reflexivity| |exact Hin].
    apply group_NoDup. }
  split; [|split].
  - rewrite <- nub_In, <- (keys_group sep). apply in_map_iff.
    exists (t, s). auto.
  - rewrite Hs. unfold group. rewrite total_fold. reflexivity.
  - intros x. rewrite Hs. unfold group. rewrite counts_fold. simpl.
    intuition.
Qed.

(** ** The severity ranking *)



Lemma py_max_nonempty (l : list Z) : l <> [] -> exists m, py_max l = Ok m.
Proof. destruct l; [congruence|]. simpl. eauto. Qed.

Lemma severity_loop_ok (items : list (str * Summary)) (d : DataBinding)
    (acc : list severity_entry) :
  (forall t s, In (t, s) items -> all_counts s <> []) ->
  exists es,
    severity_loop items (d, acc) = Ok (rebound items d, acc ++ es)
    /\ Forall2 entry_of items es.
Proof.
  revert d acc; induction items as [|[t s] items IH]; intros d acc Hne.
  - exists []. simpl. rewrite app_nil_r. auto.
  - destruct (py_max_nonempty (all_counts s)) as [m Hm].
    { apply (Hne t). simpl. auto. }
    destruct (IH (DataSummary s) (acc ++ [(t, total_issues s, m)])) as (es & E & Hes).
    { intros t' s' H. apply (Hne t'). simpl. auto. }
    exists ((t, total_issues s, m) :: es). split.
    + simpl. rewrite Hm. simpl. rewrite E, <- app_assoc. reflexivity.
    + constructor; [|exact Hes]. repeat split. exact Hm.
Qed.

Lemma group_counts_nonempty (sep : str) (issues : list Issue) (t : str)
    (s : Summary) :
  In (t, s) (group sep issues) -> all_counts s <> [].
Proof.
  intros Hin. destruct (group_entry _ _ _ _ Hin) as (Ht & _ & Hc).
  apply in_map_iff in Ht as (i & Ei & Hi).
  assert (Hx : In (policy_count i) (all_counts s)).
  { apply Hc. exists i. split; [|reflexivity].
    apply filter_In. split; [exact Hi|]. apply str_eqb_eq. exact Ei. }
  intros E. rewrite E in Hx. exact Hx.
Qed.











(** ** The performance impact *)


Lemma consolidation_loop_spec (items : list (str * Summary))
    (st : DataBinding * Z) :
  consolidation_loop items st
  = (rebound items (fst st), snd st + sumv total_issues items).
Proof.
  unfold consolidation_loop, rebound, sumv.
  revert st; induction items as [|ts items IH]; intros [d n]; simpl.
  - f_equal. lia.
  - rewrite IH. simpl. f_equal. lia.
Qed.

Lemma severity_ranking_ok (sep : str) (issues : list Issue) (data : DataBinding) :
  exists es,
    severity_ranking (group sep issues) data
    = Ok (rebound (group sep issues) data,
          py_sort severity_key tuple_lt true es).
Proof.
  destruct (severity_loop_ok (group sep issues) data []) as (es & Hloop & _).
  { intros t s. apply group_counts_nonempty. }
  exists es. unfold severity_ranking. rewrite Hloop. reflexivity.
Qed.

Lemma group_nonempty (sep : str) (issues : list Issue) :
  issues <> [] -> group sep issues <> [].
Proof.
  intros Hne E. apply (f_equal (map fst)) in E. rewrite keys_group in E.
  destruct issues as [|i issues]; [congruence|]. discriminate.
Qed.

(** The variables at line 143, for rows that are parsed. *)
Lemma performance_vars_ok (rows : list row) (issues : list Issue) :
  parse_rows rows = Ok issues ->
  exists ranking,
    let ts := group (py "+") issues in
    let data := rebound ts (rebound ts (DataRows rows)) in
    performance_vars rows
    = Ok (mkVars data ts ranking (sumv total_issues ts)
                 (total_policy_executions_before ts) (len_data data)).
Proof.
  intros Hp.
  destruct (severity_ranking_ok (py "+") issues (DataRows rows)) as [es Hs].
  exists (py_sort severity_key tuple_lt true es).
  unfold performance_vars. rewrite Hp. cbn [bind]. rewrite Hs. cbn [bind].
  rewrite consolidation_loop_spec. reflexivity.
Qed.

(** C8 as stated fails: with exactly two rows the value printed as Policy
    executions after is the number of rows. *)
Lemma executions_after_is_row_count_of_two :
  exists v,
    performance_vars (firstn 2 sample_rows) = Ok v
    /\ v_after v = 2
    /\ v_after v = Z.of_nat (length (firstn 2 sample_rows)).
Proof.
  eexists. split; [vm_compute; reflexivity|]. split; reflexivity.
Qed.


Lemma zsum_flat_map {A} (f : A -> list Z) (l : list A) :
  zsum (flat_map f l) = zsum (map (fun x => zsum (f x)) l).
Proof.
  induction l as [|x l IH]; simpl; [reflexivity|].
  rewrite zsum_app, IH. reflexivity.
Qed.

Lemma before_sumv (ts : list (str * Summary)) :
  total_policy_executions_before ts = sumv executions ts.
Proof.
  unfold total_policy_executions_before, sumv, executions.
  rewrite py_sum_zsum. apply zsum_flat_map.
Qed.

Lemma executions_group_step (sep : str) (ts : list (str * Summary)) (i : Issue) :
  sumv executions (group_step sep ts i) = sumv executions ts + policy_count i.
Proof.
  unfold group_step.
  rewrite (sumv_dd_modify executions _ _ _ _ (policy_count i)).
  - rewrite (sumv_dd_modify executions _ _ _ _ 0); [lia|reflexivity|].
    intros v. unfold executions, incr_total, all_counts. simpl. lia.
  - reflexivity.
  - intros v. unfold executions. rewrite zsum_all_counts_append. reflexivity.
Qed.

Lemma executions_fold (sep : str) (issues : list Issue)
    (ts : list (str * Summary)) :
  sumv executions (fold_left (group_step sep) issues ts)
  = sumv executions ts + zsum (map policy_count issues).
Proof.
  revert ts; induction issues as [|i issues IH]; intros ts; simpl.
  - lia.
  - rewrite IH, executions_group_step. lia.
Qed.

(** The executions before consolidation are the policy counts of all the
    issues. *)
Lemma before_group (sep : str) (issues : list Issue) :
  total_policy_executions_before (group sep issues)
  = zsum (map policy_count issues).
Proof.
  rewrite before_sumv. unfold group. rewrite executions_fold. reflexivity.
Qed.

Lemma parse_rows_parsed (rows : list row) (issues : list Issue) :
  parse_rows rows = Ok issues -> Forall2 parsed rows issues.
Proof.
  revert issues; induction rows as [|r rows IH]; intros issues; simpl.
  - intros H; injection H as <-. constructor.
  - unfold parse_row.
    destruct (getitem r (py "detail")) as [[detail|]|] eqn:Hd; simpl;
      try discriminate.
    destruct (parse_rows rows) as [is'|]; simpl; [|discriminate].
    intros H; injection H as <-. constructor; [|auto].
    exists detail. auto.
Qed.

Lemma has_policies_search (detail : str) :
  has_policies detail <-> exists g, re_search policies_regex detail = Some g.
Proof.
  destruct (re_search policies_regex detail) as [g|] eqn:Hs.
  - split; [eauto|]. intros _.
    destruct (search_policies_Some _ _ Hs) as (pre & post & Hseg & _).
    exists pre, g, post. exact Hseg.
  - apply search_policies_None in Hs. split; [contradiction|].
    intros [g Hg]. discriminate.
Qed.

Lemma policy_count_pos (detail : str) :
  (has_policies detail -> policy_count (extract detail) > 0)
  /\ (~ has_policies detail -> policy_count (extract detail) = 0).
Proof.
  split; intros H; simpl.
  - apply has_policies_search in H as [g Hg].
    apply extract_policies_nonempty in Hg.
    destruct (extract_policies detail); [congruence|]. simpl length. lia.
  - apply search_policies_None in H. rewrite extract_policies_eq, H. reflexivity.
Qed.

Lemma policy_count_nonneg (detail : str) : 0 <= policy_count (extract detail).
Proof. simpl. lia. Qed.

Lemma counts_of_parsed (rows : list row) (issues : list Issue) :
  Forall2 parsed rows issues ->
  0 <= zsum (map policy_count issues)
  /\ (Exists row_has_policies rows -> zsum (map policy_count issues) > 0)
  /\ (~ Exists row_has_policies rows -> zsum (map policy_count issues) = 0).
Proof.
  induction 1 as [|r i rows issues (detail & Hd & ->) _ (IH0 & IH1 & IH2)];
    cbn [map zsum].
  - split; [lia|]. split; [|reflexivity]. intros H. inversion H.
  - pose proof (policy_count_nonneg detail) as Hnn.
    destruct (policy_count_pos detail) as [Hpos Hzero].
    split; [lia|]. split.
    + intros H. inversion H as [? ? (d' & Hd' & Hp)|? ? Hex]; subst.
      * assert (d' = detail) by congruence. subst d'.
        specialize (Hpos Hp). lia.
      * specialize (IH1 Hex). lia.
    + intros H. rewrite Hzero, IH2; [reflexivity| |].
      * intros Hex. apply H. apply Exists_cons_tl, Hex.
      * intros Hp. apply H. apply Exists_cons_hd. exists detail. auto.
Qed.

Lemma performance_impact_before (rows : list row) (issues : list Issue) :
  parse_rows rows = Ok issues ->
  let before := zsum (map policy_count issues) in
  (before = 0 -> performance_impact rows = Raise ZeroDivisionError)
  /\ (before <> 0 ->
      exists a q, performance_impact rows = Ok (before, a, q)).
Proof.
  intros Hp before.
  destruct (performance_vars_ok rows issues Hp) as [ranking Hv].
  cbv zeta in Hv. unfold performance_impact, performance_improvement, true_div.
  rewrite Hv. cbn [bind v_before v_after]. rewrite before_group.
  fold before. split; intros H.
  - rewrite H. reflexivity.
  - apply Z.eqb_neq in H. rewrite H. cbn [bind]. eauto.
Qed.

(** C9 as stated fails: one row is present and the division raises. *)
Lemma division_by_zero_with_a_row :
  length [row_without_policies] = 1%nat
  /\ parse_rows [row_without_policies]
     = Ok [mkIssue (py "users") (py "Unknown") (py "Unknown") [] 0]
  /\ performance_impact [row_without_policies] = Raise ZeroDivisionError.
Proof. repeat split; vm_compute; reflexivity. Qed.

(** C9, amended. For rows that are parsed, the division of the performance
    impact raises [ZeroDivisionError] exactly when no row has a policies
    segment in its [detail] text, which includes the export with no rows;
    when some row has one, [total_policy_executions_before] is positive
    and the three values are printed. *)
Theorem division_defined_iff_policies (rows : list row) (issues : list Issue) :
  parse_rows rows = Ok issues ->
  (rows = [] -> performance_impact rows = Raise ZeroDivisionError)
  /\ (~ Exists row_has_policies rows ->
      performance_impact rows = Raise ZeroDivisionError)
  /\ (Exists row_has_policies rows ->
      exists before after q,
        performance_impact rows = Ok (before, after, q) /\ before > 0).
Proof.
  intros Hp.
  destruct (performance_impact_before rows issues Hp) as [Hzero Hpos].
  destruct (counts_of_parsed _ _ (parse_rows_parsed _ _ Hp)) as (_ & Hex & Hnex).
  split; [|split].
  - intros ->. reflexivity.
  - intros H. apply Hzero, Hnex, H.
  - intros H. specialize (Hex H).
    destruct Hpos as (a & q & E); [lia|]. eauto.
Qed.

(** ** The role and action key of [analyze_rls_issues.py] *)

Lemma find_sep_first (c : char) (a b : str) :
  ~ In c a -> find_sep [c] (a ++ c :: b) = Some (a, b).
Proof.
  induction a as [|x a IH]; simpl; intros Hni.
  - rewrite N.eqb_refl. reflexivity.
  - destruct (N.eqb_spec c x) as [->|_]; [tauto|].
    rewrite IH by tauto. reflexivity.
Qed.

Lemma first_occurrence (c : char) (a : str) :
  In c a -> exists a1 a2, a = a1 ++ c :: a2 /\ ~ In c a1.
Proof.
  induction a as [|x a IH]; simpl; [contradiction|]. intros H.
  destruct (N.eq_dec x c) as [->|Hne].
  - exists [], a. auto.
  - destruct IH as (a1 & a2 & -> & Hni); [tauto|].
    exists (x :: a1), a2. simpl. intuition.
Qed.

(** C10. The key [role + "_" + action] of [analyze_rls_issues.py] is
    decoded by [split('_', 1)] into the role and the action it was made
    from when the role has no underscore. When the role has one, the
    decoded role is a proper prefix of the role: for [service_role] the
    pair printed is [service] and [role_] followed by the action. *)
Theorem role_action_key_roundtrip :
  (forall i, ~ In underscore (role i) ->
     split_key (py "_") (role_action_key (py "_") i) = Ok (role i, action i))
  /\ (forall i, In underscore (role i) ->
        exists r a,
          split_key (py "_") (role_action_key (py "_") i) = Ok (r, a)
          /\ (length r < length (role i))%nat)
  /\ (forall t a ps n,
        split_key (py "_")
          (role_action_key (py "_") (mkIssue t (py "service_role") a ps n))
        = Ok (py "service", py "role_" ++ a)).
Proof.
  unfold split_key, role_action_key, py_split. cbn [split_loop].
  change (py "_") with [underscore]. split; [|split].
  - intros i Hni. change ([underscore] ++ action i) with (underscore :: action i).
    rewrite find_sep_first by exact Hni. reflexivity.
  - intros i Hin.
    destruct (first_occurrence _ _ Hin) as (a1 & a2 & E & Hni).
    rewrite E, <- app_assoc. cbn [app].
    rewrite find_sep_first by exact Hni.
    exists a1, (a2 ++ [underscore] ++ action i). split; [reflexivity|].
    rewrite length_app. simpl. lia.
  - intros t a ps n. reflexivity.
Qed.

Lemma role_action_key_roundtrip_witness :
  split_key (py "_")
    (role_action_key (py "_")
       (mkIssue (py "projects") (py "anon") (py "SELECT") [py "Admin access"] 1))
  = Ok (py "anon", py "SELECT").
Proof.
  apply (proj1 role_action_key_roundtrip
           (mkIssue (py "projects") (py "anon") (py "SELECT") [py "Admin access"] 1)).
  vm_compute. intros [H|[H|[H|[H|[]]]]]; discriminate H.
Defined.

(** ** The reader on what [json_dumps] writes *)

(** *** Strings *)

(** Below 1024 the bits of [y] are apart from those of [a * 1024]. *)
Lemma lor_high_low (a y : N) :
  (y < 1024)%N -> N.lor (a * 1024) y = (a * 1024 + y)%N.
Proof.
  intros Hy.
  assert (H0 : N.land (a * 1024) y = 0%N).
  { apply N.bits_inj. intros i. rewrite N.land_spec, N.bits_0.
    change 1024%N with (2 ^ 10)%N. rewrite <- N.shiftl_mul_pow2.
    destruct (N.lt_ge_cases i 10) as [Hi|Hi].
    - rewrite N.shiftl_spec_low by exact Hi. reflexivity.
    - rewrite <- (N.mod_small y (2 ^ 10)) by exact Hy.
      rewrite N.mod_pow2_bits_high by exact Hi. apply andb_false_r. }
  rewrite <- N.lxor_lor by exact H0. symmetry. apply N.add_nocarry_lxor.
  exact H0.
Qed.

Lemma unhex_hex_digit (d : N) : (d < 16)%N -> unhex (hex_digit d) = Some d.
Proof.
  intros Hd.
  assert (H : In d [0; 1; 2; 3; 4; 5; 6; 7; 8; 9; 10; 11; 12; 13; 14; 15]%N).
  { cbn [In]. lia. }
  cbn [In] in H.
  repeat (destruct H as [<-|H]; [reflexivity|]). destruct H.
Qed.

Lemma unhex4_hex4 (n : N) :
  (n < 65536)%N ->
  unhex4 (hex_digit ((n / 4096) mod 16)) (hex_digit ((n / 256) mod 16))
         (hex_digit ((n / 16) mod 16)) (hex_digit (n mod 16))
  = Some n.
Proof.
  intros Hn. unfold unhex4.
  rewrite !unhex_hex_digit by (apply N.mod_upper_bound; discriminate).
  f_equal. zify. Z.to_euclidean_division_equations. lia.
Qed.

Lemma read_string_u (h1 h2 h3 h4 : char) (rest2 : str) :
  read_string (92 :: 117 :: h1 :: h2 :: h3 :: h4 :: rest2)%N
  = match unhex4 h1 h2 h3 h4 with
    | None => None
    | Some n =>
        if (N.leb 0xD800 n && N.ltb n 0xDC00)%bool then
          match rest2 with
          | b :: u :: l1 :: l2 :: l3 :: l4 :: rest3 =>
              if (N.eqb b 92 && N.eqb u 117)%bool then
                match unhex4 l1 l2 l3 l4 with
                | None => None
                | Some m =>
                    if (N.leb 0xDC00 m && N.ltb m 0xE000)%bool
                    then cons_char
                           (0x10000 + (n - 0xD800) * 1024 + (m - 0xDC00))%N
                           (read_string rest3)
                    else cons_char n (read_string rest2)
                end
              else cons_char n (read_string rest2)
          | _ => cons_char n (read_string rest2)
          end
        else cons_char n (read_string rest2)
    end.
Proof. reflexivity. Qed.

Lemma read_string_plain (c : char) (rest : str) :
  c <> 34%N -> c <> 92%N ->
  read_string (c :: rest) = cons_char c (read_string rest).
Proof.
  intros H1 H2. cbn [read_string].
  apply N.eqb_neq in H1, H2. rewrite H1, H2. reflexivity.
Qed.

(** The pair of surrogates written for a character above the basic
    plane, and the character they recombine to. *)
Lemma surrogates_of (n : N) :
  (n < 0x100000)%N ->
  let hi := N.lor 0xd800 (N.land (N.shiftr n 10) 0x3ff) in
  let lo := N.lor 0xdc00 (N.land n 0x3ff) in
  (0xD800 <= hi < 0xDC00 /\ 0xDC00 <= lo < 0xE000
   /\ (hi - 0xD800) * 1024 + (lo - 0xDC00) = n)%N.
Proof.
  intros Hn hi lo. subst hi lo.
  rewrite N.shiftr_div_pow2.
  change 0x3ff%N with (N.ones 10). rewrite !N.land_ones.
  change 0xd800%N with (54 * 1024)%N. change 0xdc00%N with (55 * 1024)%N.
  change (2 ^ 10)%N with 1024%N.
  rewrite !lor_high_low by (apply N.mod_upper_bound; discriminate).
  zify. Z.to_euclidean_division_equations. lia.
Qed.

(** One character, escaped, reads back as itself. *)
Lemma read_string_escape (c : char) (tail : str) :
  no_high_surrogate c ->
  read_string (escape_char c ++ tail) = cons_char c (read_string tail).
Proof.
  intros [Hs Hc]. unfold escape_char.
  destruct (N.eqb_spec c 92) as [->|H92]; [reflexivity|].
  destruct (N.eqb_spec c dquote) as [->|H34]; [reflexivity|].
  destruct ((32 <=? c) && (c <=? 126))%N eqn:Hp.
  { cbn [app]. apply read_string_plain; assumption. }
  destruct (N.eqb_spec c 8) as [->|H8]; [reflexivity|].
  destruct (N.eqb_spec c 12) as [->|H12]; [reflexivity|].
  destruct (N.eqb_spec c 10) as [->|H10]; [reflexivity|].
  destruct (N.eqb_spec c 13) as [->|H13]; [reflexivity|].
  destruct (N.eqb_spec c 9) as [->|H9]; [reflexivity|].
  destruct (N.ltb_spec c 0x10000) as [Hlt|Hge].
  - unfold u_escape, hex4. change (py "\u") with [92; 117]%N. cbn [app].
    rewrite read_string_u, unhex4_hex4 by exact Hlt.
    destruct (N.leb_spec 0xD800 c) as [H1|H1]; [|reflexivity].
    destruct (N.ltb_spec c 0xDC00) as [H2|H2]; [lia|reflexivity].
  - cbv zeta.
    destruct (surrogates_of (c - 0x10000)) as (Hhi & Hlo & Heq); [lia|].
    set (hi := N.lor 0xd800 (N.land (N.shiftr (c - 0x10000) 10) 0x3ff)) in *.
    set (lo := N.lor 0xdc00 (N.land (c - 0x10000) 0x3ff)) in *.
    unfold u_escape, hex4. change (py "\u") with [92; 117]%N. cbn [app].
    rewrite read_string_u, unhex4_hex4 by lia.
    replace (N.leb 0xD800 hi && N.ltb hi 0xDC00)%bool with true
      by (symmetry; apply andb_true_intro; split;
          [apply N.leb_le|apply N.ltb_lt]; lia).
    rewrite !N.eqb_refl. cbn [andb].
    rewrite unhex4_hex4 by lia.
    replace (N.leb 0xDC00 lo && N.ltb lo 0xE000)%bool with true
      by (symmetry; apply andb_true_intro; split;
          [apply N.leb_le|apply N.ltb_lt]; lia).
    replace (0x10000 + (hi - 0xD800) * 1024 + (lo - 0xDC00))%N with c by lia.
    reflexivity.
Qed.

Lemma read_string_quoted (s rest : str) :
  Forall no_high_surrogate s ->
  read_string (flat_map escape_char s ++ dquote :: rest) = Some (s, rest).
Proof.
  induction 1 as [|c s Hc Hs IH].
  - reflexivity.
  - cbn [flat_map]. rewrite <- app_assoc, read_string_escape by exact Hc.
    rewrite IH. reflexivity.
Qed.

(** *** Numbers *)

Lemma py_String (a : ascii) (s : string) :
  py (String a s) = N_of_ascii a :: py s.
Proof. reflexivity. Qed.

Ltac ascii_code :=
  match goal with
  | |- context [N_of_ascii ?a] =>
      let v := eval vm_compute in (N_of_ascii a) in
      change (N_of_ascii a) with v
  end.

Lemma read_digits_digit (acc : N) (c : char) (t : str) :
  is_digit c = true ->
  read_digits acc (c :: t) = read_digits (acc * 10 + (c - 48))%N t.
Proof. intros H. cbn [read_digits]. rewrite H. reflexivity. Qed.

Lemma read_digits_stop (acc : N) (rest : str) :
  no_digit_ahead rest -> read_digits acc rest = (acc, rest).
Proof.
  destruct rest as [|c t]; [reflexivity|].
  cbn [no_digit_ahead read_digits]. intros ->. reflexivity.
Qed.

Lemma read_digits_acc (d : Decimal.uint) (p : positive) (rest : str) :
  no_digit_ahead rest ->
  read_digits (N.pos p) (py (NilEmpty.string_of_uint d) ++ rest)
  = (N.pos (Pos.of_uint_acc d p), rest).
Proof.
  intros Hrest. revert p.
  induction d as [|d IH|d IH|d IH|d IH|d IH|d IH|d IH|d IH|d IH|d IH];
    intros p; cbn [NilEmpty.string_of_uint Pos.of_uint_acc];
    [apply read_digits_stop; exact Hrest|..];
    rewrite py_String; ascii_code; cbn [app];
    rewrite read_digits_digit by reflexivity;
    rewrite <- IH; f_equal; lia.
Qed.

Lemma read_digits_uint (d : Decimal.uint) (rest : str) :
  no_digit_ahead rest ->
  read_digits 0 (py (NilEmpty.string_of_uint d) ++ rest)
  = (Pos.of_uint d, rest).
Proof.
  intros Hrest.
  induction d as [|d IH|d IH|d IH|d IH|d IH|d IH|d IH|d IH|d IH|d IH];
    cbn [NilEmpty.string_of_uint Pos.of_uint];
    [apply read_digits_stop; exact Hrest|..];
    rewrite py_String; ascii_code; cbn [app];
    rewrite read_digits_digit by reflexivity;
    [exact IH|..]; apply (read_digits_acc d _ rest Hrest).
Qed.

Lemma decimal_digits (n : Z) :
  0 <= n ->
  exists d, decimal n = py (NilEmpty.string_of_uint d)
            /\ Pos.of_uint d = Z.to_N n /\ d <> Decimal.Nil.
Proof.
  intros Hn. destruct n as [|p|p]; [| |lia].
  - exists (Decimal.D0 Decimal.Nil). repeat split. discriminate.
  - exists (Pos.to_uint p). split; [reflexivity|]. split.
    + apply DecimalPos.Unsigned.of_to.
    + apply DecimalPos.Unsigned.to_uint_nonnil.
Qed.

Lemma uint_head (d : Decimal.uint) :
  d <> Decimal.Nil ->
  exists c t, py (NilEmpty.string_of_uint d) = c :: t /\ is_digit c = true.
Proof.
  intros Hd. destruct d; [contradiction|..];
    cbn [NilEmpty.string_of_uint]; rewrite py_String; ascii_code;
    eexists; eexists;
    (split; [reflexivity|reflexivity]).
Qed.

(** *** Values *)

Lemma skip_spaces_head (c : char) (t : str) :
  c <> 32%N -> skip_spaces (c :: t) = c :: t.
Proof.
  intros H. cbn [skip_spaces]. apply N.eqb_neq in H. rewrite H. reflexivity.
Qed.

Lemma read_value_string (f : nat) (s rest : str) :
  Forall no_high_surrogate s ->
  read_value (S f) (json_quote s ++ rest) = Some (JString s, rest).
Proof.
  intros Hs. unfold json_quote. cbn [app]. rewrite <- app_assoc. cbn [app].
  change (read_value (S f) (dquote :: flat_map escape_char s ++ dquote :: rest))
    with (match read_string (flat_map escape_char s ++ dquote :: rest) with
          | Some (t, r) => Some (JString t, r)
          | None => None
          end).
  rewrite read_string_quoted by exact Hs. reflexivity.
Qed.

Lemma read_value_int (f : nat) (n : Z) (rest : str) :
  0 <= n -> no_digit_ahead rest ->
  read_value (S f) (decimal n ++ rest) = Some (JInt n, rest).
Proof.
  intros Hn Hrest.
  destruct (decimal_digits n Hn) as (d & Hd & Hval & Hnil).
  destruct (uint_head d Hnil) as (c & t & Hct & Hc).
  pose proof (read_digits_uint d rest Hrest) as Hread.
  rewrite Hd. rewrite Hct in *. cbn [app] in *. cbn [read_value].
  assert (H34 : N.eqb c 34 = false).
  { apply N.eqb_neq. intros ->. discriminate. }
  assert (H123 : N.eqb c 123 = false).
  { apply N.eqb_neq. intros ->. discriminate. }
  rewrite H34, H123, Hc, Hread, Hval, Z2N.id by exact Hn. reflexivity.
Qed.

Lemma read_value_object (f : nat) (t : str) :
  read_value (S f) (123%N :: t)
  = match skip_spaces t with
    | [] => None
    | d :: rest' =>
        if N.eqb d 125 then Some (JObject [], rest')
        else read_members f [] (d :: rest')
    end.
Proof. reflexivity. Qed.

Lemma read_members_field (f : nat) (acc : list (str * json)) (k vt : str) :
  Forall no_high_surrogate k ->
  read_members (S f) acc (json_quote k ++ py ": " ++ vt)
  = match read_value f (skip_spaces vt) with
    | None => None
    | Some (v, r3) =>
        match skip_spaces r3 with
        | [] => None
        | e :: r4 =>
            if N.eqb e 44 then
              read_members f (acc ++ [(k, v)]) (skip_spaces r4)
            else if N.eqb e 125 then Some (JObject (acc ++ [(k, v)]), r4)
            else None
        end
    end.
Proof.
  intros Hk. unfold json_quote. change (py ": ") with [58; 32]%N.
  cbn [app]. rewrite <- app_assoc. cbn [app].
  change (read_members (S f) acc
            (dquote :: flat_map escape_char k ++ dquote :: 58%N :: 32%N :: vt))
    with (match read_string
                  (flat_map escape_char k ++ dquote :: 58%N :: 32%N :: vt) with
          | None => None
          | Some (k, r1) =>
              match skip_spaces r1 with
              | [] => None
              | colon :: r2 =>
                  if N.eqb colon 58 then
                    match read_value f (skip_spaces r2) with
                    | None => None
                    | Some (v, r3) =>
                        match skip_spaces r3 with
                        | [] => None
                        | e :: r4 =>
                            if N.eqb e 44 then
                              read_members f (acc ++ [(k, v)]) (skip_spaces r4)
                            else if N.eqb e 125 then
                              Some (JObject (acc ++ [(k, v)]), r4)
                            else None
                        end
                    end
                  else None
              end
          end).
  rewrite read_string_quoted by exact Hk. reflexivity.
Qed.

(** A serialization is not empty and does not start with a space. *)
Lemma json_dumps_head (j : json) :
  plain j ->
  exists c t, json_dumps j = c :: t /\ c <> 32%N /\ (0 < length (json_dumps j))%nat.
Proof.
  intros Hj. destruct j as [s|n|fields].
  - exists dquote, (flat_map escape_char s ++ [dquote]).
    split; [reflexivity|]. split; [discriminate|]. cbn. lia.
  - cbn [plain] in Hj. destruct (decimal_digits n Hj) as (d & Hd & _ & Hnil).
    destruct (uint_head d Hnil) as (c & t & Hct & Hc).
    exists c, t. cbn [json_dumps]. rewrite Hd, Hct.
    split; [reflexivity|]. split; [|cbn; lia].
    intros ->. discriminate.
  - cbn [json_dumps]. change (py "{") with [123%N]. cbn [app].
    eexists. eexists. split; [reflexivity|]. split; [discriminate|].
    cbn. lia.
Qed.

Lemma members_text_cons (k : str) (v : json) (more : list (str * json)) :
  members_text ((k, v) :: more)
  = json_quote k ++ py ": " ++ json_dumps v
      ++ match more with
         | [] => []
         | _ :: _ => py ", " ++ members_text more
         end.
Proof.
  unfold members_text. cbn [map join fst snd].
  destruct more as [|kv more]; cbn [map].
  - rewrite !app_nil_r. reflexivity.
  - rewrite <- !app_assoc. reflexivity.
Qed.

Lemma members_text_head (kv : str * json) (more : list (str * json)) :
  exists t, members_text (kv :: more) = dquote :: t.
Proof.
  destruct kv as [k v]. rewrite members_text_cons. unfold json_quote.
  cbn [app]. eexists. reflexivity.
Qed.

(** The members of a non-empty object, given that smaller values read
    back. *)
Lemma read_members_roundtrip (bound : nat) :
  (forall m j rest,
     (m < bound)%nat -> (length (json_dumps j) <= m)%nat -> plain j ->
     no_digit_ahead rest ->
     read_value m (json_dumps j ++ rest) = Some (j, rest)) ->
  forall fields acc m rest,
    fields <> [] -> (m <= bound)%nat ->
    (length (members_text fields) < m)%nat -> plain_members fields ->
    read_members m acc (members_text fields ++ 125%N :: rest)
    = Some (JObject (acc ++ fields), rest).
Proof.
  intros Hvalue fields.
  induction fields as [|[k v] more IH]; intros acc m rest Hne Hm Hlen Hplain;
    [contradiction|].
  destruct Hplain as ((Hk & Hv) & Hmore). cbn [fst snd] in Hk, Hv.
  fold (plain_members more) in Hmore.
  rewrite members_text_cons in Hlen |- *.
  destruct m as [|m]; [lia|].
  rewrite <- !app_assoc. rewrite read_members_field by exact Hk.
  destruct (json_dumps_head v Hv) as (c & t & Hct & Hc & _).
  rewrite !length_app in Hlen.
  assert (Hq : (2 <= length (json_quote k))%nat).
  { unfold json_quote. rewrite !length_app. cbn [length]. lia. }
  change (length (py ": ")) with 2%nat in Hlen.
  replace (skip_spaces (json_dumps v ++ _)) with
    (json_dumps v ++
       (match more with [] => [] | _ :: _ => py ", " ++ members_text more end)
       ++ 125%N :: rest)
    by (rewrite Hct; cbn [app]; symmetry; apply skip_spaces_head; exact Hc).
  destruct more as [|kv more].
  - cbn [app]. rewrite Hvalue; [reflexivity|lia|lia|exact Hv|reflexivity].
  - change (py ", ") with [44; 32]%N. cbn [app].
    rewrite Hvalue; [|lia|lia|exact Hv|reflexivity].
    cbn [skip_spaces N.eqb Pos.eqb].
    destruct (members_text_head kv more) as (t' & Ht').
    change (py ", ") with [44; 32]%N in Hlen. cbn [length app] in Hlen.
    replace (skip_spaces (members_text (kv :: more) ++ 125%N :: rest))
      with (members_text (kv :: more) ++ 125%N :: rest)
      by (rewrite Ht'; reflexivity).
    rewrite IH; [|discriminate|lia|lia|exact Hmore].
    rewrite <- app_assoc. reflexivity.
Qed.

Lemma read_value_roundtrip (f : nat) :
  forall j rest,
    (length (json_dumps j) <= f)%nat -> plain j -> no_digit_ahead rest ->
    read_value f (json_dumps j ++ rest) = Some (j, rest).
Proof.
  induction f as [f IH] using lt_wf_ind. intros j rest Hlen Hj Hrest.
  destruct (json_dumps_head j Hj) as (_ & _ & _ & _ & Hpos).
  destruct f as [|f]; [lia|].
  destruct j as [s|n|fields].
  - apply read_value_string. exact Hj.
  - apply read_value_int; assumption.
  - cbn [json_dumps] in Hlen |- *. fold (members_text fields) in Hlen |- *.
    change (py "{") with [123%N] in *. change (py "}") with [125%N] in *.
    cbn [app] in *. rewrite <- app_assoc. cbn [app].
    change (@cons char) with (@cons N) in *.
    rewrite read_value_object.
    destruct fields as [|kv more]; [reflexivity|].
    destruct (members_text_head kv more) as (t & Ht).
    assert (Hskip : skip_spaces (members_text (kv :: more) ++ 125%N :: rest)
                    = members_text (kv :: more) ++ 125%N :: rest)
      by (rewrite Ht; reflexivity).
    rewrite Hskip.
    transitivity
      (read_members f [] (members_text (kv :: more) ++ 125%N :: rest));
      [rewrite Ht; reflexivity|].
    cbn [length] in Hlen. rewrite length_app in Hlen. cbn [length] in Hlen.
    apply (read_members_roundtrip (S f)); [|discriminate|lia|lia|exact Hj].
    intros m j' rest' Hm. apply IH. exact Hm.
Qed.

(** [json.loads(json.dumps(j)) == j] on plain values. *)
Lemma json_roundtrip (j : json) :
  plain j -> json_loads (json_dumps j) = Some j.
Proof.
  intros Hj. unfold json_loads.
  destruct (json_dumps_head j Hj) as (c & t & Hct & Hc & _).
  replace (skip_spaces (json_dumps j)) with (json_dumps j ++ [])
    by (rewrite app_nil_r, Hct; symmetry; apply skip_spaces_head; exact Hc).
  rewrite read_value_roundtrip; [reflexivity|lia|exact Hj|exact I].
Qed.

Lemma py_no_high_surrogate (s : string) : Forall no_high_surrogate (py s).
Proof.
  unfold py. apply Forall_forall. intros c Hc.
  apply in_map_iff in Hc. destruct Hc as (a & <- & _).
  pose proof (N_ascii_bounded a). unfold no_high_surrogate. lia.
Qed.

Lemma tools_call_plain (name : string) (arguments : json) :
  plain arguments -> plain (tools_call (py name) arguments).
Proof.
  intros Ha. cbn [plain tools_call map fold_right fst snd].
  repeat split; try apply py_no_high_surrogate; try exact Ha. lia.
Qed.

(** ** The command line of [analyze-db.py] *)

Section AnalyzeDbFacts.
Variable url : str.
Variable mcp : list str -> str -> str * str.

Lemma run_mcp_command_spec (command : list (str * json)) (name : str)
    (w : World) :
  getitem command (py "name") = Ok (JString name) ->
  let input :=
    json_dumps (tools_call name (dict_get command (py "arguments") (JObject []))) in
  let out := mcp (mcp_args url) input in
  run_mcp_command url mcp command w
  = (mkWorld (printed w
              ++ match snd out with
                 | [] => []
                 | _ :: _ => [py "Error: " ++ snd out]
                 end)
             (spawned w ++ [(mcp_args url, input)]),
     Ok (fst out)).
Proof.
  intros Hname input out.
  unfold run_mcp_command, io_bind, lift, communicate. rewrite Hname.
  fold (tools_call name (dict_get command (py "arguments") (JObject []))).
  fold input. fold (mcp_args url). fold out.
  destruct out as [stdout [|c stderr]]; cbn [snd fst printed spawned print io_ret].
  - rewrite app_nil_r. destruct w. reflexivity.
  - reflexivity.
Qed.

Lemma subcommand_forwarded (banner name : str) (command : list (str * json)) :
  getitem command (py "name") = Ok (JString name) ->
  (print banner ;;; result <~ run_mcp_command url mcp command ;; print result)
    (mkWorld [] [])
  = forwarded url mcp banner name
      (dict_get command (py "arguments") (JObject [])).
Proof.
  intros Hname. unfold io_bind at 1. cbn [print printed spawned app].
  unfold io_bind. rewrite (run_mcp_command_spec command name _ Hname).
  reflexivity.
Qed.

Lemma run_health (prog : str) (rest : list str) :
  run url mcp (prog :: py "health" :: rest)
  = forwarded url mcp health_banner (py "analyze_db_health") (JObject []).
Proof.
  unfold run, main. cbn [length Nat.ltb Nat.leb nth].
  rewrite str_eqb_refl.
  apply (subcommand_forwarded health_banner (py "analyze_db_health")).
  reflexivity.
Qed.

Lemma run_slow_queries (prog : str) (rest : list str) :
  run url mcp (prog :: py "slow-queries" :: rest)
  = forwarded url mcp slow_queries_banner (py "get_top_queries") (JObject []).
Proof.
  unfold run, main. cbn [length Nat.ltb Nat.leb nth].
  replace (str_eqb (py "slow-queries") (py "health")) with false by reflexivity.
  rewrite str_eqb_refl.
  apply (subcommand_forwarded slow_queries_banner (py "get_top_queries")).
  reflexivity.
Qed.

Lemma run_index_recommend (prog : str) (rest : list str) :
  run url mcp (prog :: py "index-recommend" :: rest)
  = forwarded url mcp index_recommend_banner (py "analyze_workload_indexes")
      (JObject []).
Proof.
  unfold run, main. cbn [length Nat.ltb Nat.leb nth].
  replace (str_eqb (py "index-recommend") (py "health")) with false
    by reflexivity.
  replace (str_eqb (py "index-recommend") (py "slow-queries")) with false
    by reflexivity.
  rewrite str_eqb_refl.
  apply (subcommand_forwarded index_recommend_banner
           (py "analyze_workload_indexes")).
  reflexivity.
Qed.

Lemma run_explain (prog query : str) (rest : list str) :
  run url mcp (prog :: py "explain" :: query :: rest)
  = forwarded url mcp (explain_banner query) (py "explain_query")
      (JObject [(py "query", JString query)]).
Proof.
  unfold run, main. cbn [length Nat.ltb Nat.leb nth].
  replace (str_eqb (py "explain") (py "health")) with false by reflexivity.
  replace (str_eqb (py "explain") (py "slow-queries")) with false
    by reflexivity.
  replace (str_eqb (py "explain") (py "index-recommend")) with false
    by reflexivity.
  rewrite str_eqb_refl. cbn [andb].
  apply (subcommand_forwarded (explain_banner query) (py "explain_query")).
  reflexivity.
Qed.

Lemma run_rejected (prog command : str) (rest : list str) :
  command <> py "health" -> command <> py "slow-queries" ->
  command <> py "index-recommend" ->
  command <> py "explain" \/ rest = [] ->
  run url mcp (prog :: command :: rest)
  = rejected (py "Unknown command: " ++ command).
Proof.
  intros H1 H2 H3 H4. apply str_eqb_neq in H1, H2, H3.
  unfold run, main. destruct H4 as [H4| ->].
  - apply str_eqb_neq in H4. cbn [length Nat.ltb Nat.leb nth].
    rewrite H1, H2, H3, H4. reflexivity.
  - cbn [length Nat.ltb Nat.leb nth].
    rewrite H1, H2, H3, andb_false_r. reflexivity.
Qed.

(** Every run is rejected with one line or forwards one request. *)
Lemma run_cases (argv : list str) :
  (exists line, run url mcp argv = rejected line)
  \/ (exists banner name arguments,
        run url mcp argv = forwarded url mcp banner name arguments).
Proof.
  destruct argv as [|prog [|command rest]];
    [left; exists usage; reflexivity|left; exists usage; reflexivity|].
  destruct (str_eqb command (py "health")) eqn:E1.
  { apply str_eqb_eq in E1. subst. right. rewrite run_health. eauto. }
  destruct (str_eqb command (py "slow-queries")) eqn:E2.
  { apply str_eqb_eq in E2. subst. right. rewrite run_slow_queries. eauto. }
  destruct (str_eqb command (py "index-recommend")) eqn:E3.
  { apply str_eqb_eq in E3. subst. right. rewrite run_index_recommend. eauto. }
  apply str_eqb_neq in E1, E2, E3.
  destruct (str_eqb command (py "explain")) eqn:E4.
  - apply str_eqb_eq in E4. subst. destruct rest as [|query rest].
    + left. rewrite run_rejected; eauto.
    + right. rewrite run_explain. eauto.
  - apply str_eqb_neq in E4. left. rewrite run_rejected; eauto.
Qed.

(** C2. Without a command the usage text is printed and the status is
    1; [explain] without a query, and every command other than [health],
    [slow-queries], [index-recommend] and [explain], print the line
    [Unknown command: ...] and give status 1. In none of these cases is
    a process spawned, and no run has a status other than 0 and 1. *)
Theorem invalid_invocations_exit_1 :
  (forall argv, (length argv < 2)%nat ->
     run url mcp argv = rejected usage
     /\ exit_status (snd (run url mcp argv)) = 1)
  /\ (forall prog,
        run url mcp [prog; py "explain"]
        = rejected (py "Unknown command: explain")
        /\ exit_status (snd (run url mcp [prog; py "explain"])) = 1)
  /\ (forall prog command rest,
        command <> py "health" -> command <> py "slow-queries" ->
        command <> py "index-recommend" -> command <> py "explain" ->
        run url mcp (prog :: command :: rest)
        = rejected (py "Unknown command: " ++ command)
        /\ exit_status (snd (run url mcp (prog :: command :: rest))) = 1)
  /\ (forall argv,
        exit_status (snd (run url mcp argv)) = 0
        \/ exit_status (snd (run url mcp argv)) = 1).
Proof.
  split; [|split; [|split]].
  - intros [|prog [|command rest]] Hlen; simpl in Hlen; try lia;
      split; reflexivity.
  - intros prog. rewrite run_rejected; try discriminate; auto.
  - intros prog command rest H1 H2 H3 H4.
    rewrite run_rejected; auto.
  - intros argv.
    destruct (run_cases argv) as [[line ->]|(banner & name & args & ->)];
      [right|left]; reflexivity.
Qed.

(** C5. Each of the four subcommands prints its banner, then the standard
    error of the spawned process, unmodified, after the label [Error: ]
    (nothing when it is empty), then the standard output of the process,
    unmodified. *)
Theorem subprocess_output_printed (prog query : str) (rest : list str) :
  printed (fst (run url mcp (prog :: py "health" :: rest)))
  = wrapper_lines health_banner
      (mcp (mcp_args url)
         (json_dumps (tools_call (py "analyze_db_health") (JObject []))))
  /\ printed (fst (run url mcp (prog :: py "slow-queries" :: rest)))
     = wrapper_lines slow_queries_banner
         (mcp (mcp_args url)
            (json_dumps (tools_call (py "get_top_queries") (JObject []))))
  /\ printed (fst (run url mcp (prog :: py "index-recommend" :: rest)))
     = wrapper_lines index_recommend_banner
         (mcp (mcp_args url)
            (json_dumps
               (tools_call (py "analyze_workload_indexes") (JObject []))))
  /\ printed (fst (run url mcp (prog :: py "explain" :: query :: rest)))
     = wrapper_lines (explain_banner query)
         (mcp (mcp_args url)
            (json_dumps
               (tools_call (py "explain_query")
                  (JObject [(py "query", JString query)])))).
Proof.
  rewrite run_health, run_slow_queries, run_index_recommend, run_explain.
  repeat split.
Qed.

(** C7. Each of the four subcommands spawns one process, and what it
    writes to the standard input of that process reads back, as
    [json.loads] reads it, as one object with exactly the fields
    [jsonrpc], [method], [params] and [id], in that order: [jsonrpc] is
    [2.0], [method] is [tools/call], [id] is 1, and [params] is an object
    with the name of the tool of the subcommand under [name] and its
    arguments under [arguments]: the empty object, and for [explain] the
    object with the query under [query]. For [explain] the text reads
    back with this query when the query has no high surrogate. *)
Theorem request_is_tools_call (prog query : str) (rest : list str) :
  (exists text,
     spawned (fst (run url mcp (prog :: py "health" :: rest)))
     = [(mcp_args url, text)]
     /\ json_loads text
        = Some (JObject
                  [(py "jsonrpc", JString (py "2.0"));
                   (py "method", JString (py "tools/call"));
                   (py "params",
                    JObject [(py "name", JString (py "analyze_db_health"));
                             (py "arguments", JObject [])]);
                   (py "id", JInt 1)]))
  /\ (exists text,
        spawned (fst (run url mcp (prog :: py "slow-queries" :: rest)))
        = [(mcp_args url, text)]
        /\ json_loads text
           = Some (JObject
                     [(py "jsonrpc", JString (py "2.0"));
                      (py "method", JString (py "tools/call"));
                      (py "params",
                       JObject [(py "name", JString (py "get_top_queries"));
                                (py "arguments", JObject [])]);
                      (py "id", JInt 1)]))
  /\ (exists text,
        spawned (fst (run url mcp (prog :: py "index-recommend" :: rest)))
        = [(mcp_args url, text)]
        /\ json_loads text
           = Some (JObject
                     [(py "jsonrpc", JString (py "2.0"));
                      (py "method", JString (py "tools/call"));
                      (py "params",
                       JObject [(py "name",
                                 JString (py "analyze_workload_indexes"));
                                (py "arguments", JObject [])]);
                      (py "id", JInt 1)]))
  /\ (exists text,
        spawned (fst (run url mcp (prog :: py "explain" :: query :: rest)))
        = [(mcp_args url, text)]
        /\ (Forall no_high_surrogate query ->
            json_loads text
            = Some (JObject
                      [(py "jsonrpc", JString (py "2.0"));
                       (py "method", JString (py "tools/call"));
                       (py "params",
                        JObject [(py "name", JString (py "explain_query"));
                                 (py "arguments",
                                  JObject [(py "query", JString query)])]);
                       (py "id", JInt 1)]))).
Proof.
  rewrite run_health, run_slow_queries, run_index_recommend, run_explain.
  unfold forwarded. cbn [fst spawned].
  split; [|split; [|split]]; eexists; (split; [reflexivity|]).
  - apply (json_roundtrip (tools_call (py "analyze_db_health") (JObject []))).
    apply tools_call_plain. exact I.
  - apply (json_roundtrip (tools_call (py "get_top_queries") (JObject []))).
    apply tools_call_plain. exact I.
  - apply (json_roundtrip
             (tools_call (py "analyze_workload_indexes") (JObject []))).
    apply tools_call_plain. exact I.
  - intros Hquery.
    apply (json_roundtrip
             (tools_call (py "explain_query")
                (JObject [(py "query", JString query)]))).
    apply tools_call_plain. cbn [plain map fold_right fst snd].
    repeat split; [apply py_no_high_surrogate|exact Hquery].
Qed.
End AnalyzeDbFacts.

(** ** The statements on sample exports *)

Lemma invalid_invocations_exit_1_witness :
  run (py "postgresql://localhost/postgres") (fun _ _ => ([], []))
      [py "analyze-db.py"; py "vacuum"; py "full"]
  = rejected (py "Unknown command: vacuum")
  /\ exit_status
       (snd (run (py "postgresql://localhost/postgres") (fun _ _ => ([], []))
                 [py "analyze-db.py"; py "vacuum"; py "full"])) = 1.
Proof.
  apply (proj1 (proj2 (proj2 (invalid_invocations_exit_1
                                (py "postgresql://localhost/postgres")
                                (fun _ _ => ([], []))))));
    apply str_eqb_neq; reflexivity.
Defined.

Lemma grouping_partitions_rows_witness :
  py_sum (map (fun ts => total_issues (snd ts)) (group (py "_") sample_issues))
  = Z.of_nat (length sample_rows).
Proof.
  apply (grouping_partitions_rows (py "_") sample_rows sample_issues).
  vm_compute. reflexivity.
Defined.

Lemma policies_extraction_witness :
  (exists pre g post pieces,
     policies_segment (nth 0 sample_details []) pre g post
     /\ (forall pre' g' post',
           policies_segment (nth 0 sample_details []) pre' g' post' ->
           (length pre <= length pre')%nat
           /\ (length pre' = length pre -> (length g <= length g')%nat))
     /\ Split quoted_comma g pieces
     /\ Forall2 unquoted pieces (policies (extract (nth 0 sample_details []))))
  /\ policies (extract (nth 0 sample_details []))
     = [py "Admin access"; py "User view"].
Proof.
  split; [|vm_compute; reflexivity].
  apply (proj1 (policies_extraction (nth 0 sample_details []))).
  apply has_policies_search. eexists. vm_compute. reflexivity.
Defined.


Lemma division_defined_iff_policies_witness :
  exists before after q,
    performance_impact sample_rows = Ok (before, after, q) /\ before > 0.
Proof.
  apply (proj2 (proj2 (division_defined_iff_policies sample_rows sample_issues
                         ltac:(vm_compute; reflexivity)))).
  apply Exists_cons_hd. eexists. split; [reflexivity|].
  apply has_policies_search. eexists. vm_compute. reflexivity.
Defined.

(* ================================================================== *)
(** * Part III: further properties of the scripts *)
(* ================================================================== *)

(** ** The order on strings and [sorted] *)

Lemma str_ltb_irrefl (a : str) : str_ltb a a = false.
Proof.
  induction a as [|x a IH]; simpl; [reflexivity|].
  rewrite N.eqb_refl. exact IH.
Qed.

Lemma str_ltb_asym (a b : str) : str_ltb a b = true -> str_ltb b a = false.
Proof.
  revert b; induction a as [|x a IH]; intros [|y b]; simpl; try congruence.
  rewrite (N.eqb_sym y x).
  destruct (N.eqb_spec x y) as [->|Hne]; [apply IH|].
  rewrite N.ltb_lt, N.ltb_ge. lia.
Qed.

Lemma str_ge_trans (a b c : str) :
  str_ltb b a = false -> str_ltb c b = false -> str_ltb c a = false.
Proof.
  revert b c; induction a as [|x a IH]; intros [|y b] [|z c]; simpl;
    try congruence.
  destruct (N.eqb_spec y x) as [Eyx|Hyx], (N.eqb_spec z y) as [Ezy|Hzy].
  - subst. rewrite N.eqb_refl. apply IH.
  - subst. destruct (N.eqb_spec z x); [congruence|]. auto.
  - subst. destruct (N.eqb_spec y x); [congruence|]. auto.
  - rewrite !N.ltb_ge. intros H1 H2.
    destruct (N.eqb_spec z x) as [->|_]; [lia|]. apply N.ltb_ge. lia.
Qed.

Lemma str_ltb_total (a b : str) :
  str_ltb a b = false -> str_ltb b a = false -> a = b.
Proof.
  revert b; induction a as [|x a IH]; intros [|y b]; simpl; try congruence.
  rewrite (N.eqb_sym y x).
  destruct (N.eqb_spec x y) as [->|Hne].
  - intros H1 H2. f_equal. apply IH; assumption.
  - rewrite !N.ltb_ge. lia.
Qed.

Lemma py_sorted_perm (l : list str) : Permutation (py_sorted l) l.
Proof. apply py_sort_perm. Qed.

Lemma py_sorted_In (x : str) (l : list str) : In x (py_sorted l) <-> In x l.
Proof.
  split; apply Permutation_in; [|symmetry]; apply py_sorted_perm.
Qed.

Lemma StronglySorted_strict (l : list str) :
  StronglySorted (fun a b => str_ltb b a = false) l -> NoDup l ->
  StronglySorted str_lt l.
Proof.
  induction 1 as [|x l Hs IH Hx]; intros Hnd; constructor;
    inversion Hnd as [|? ? Hni Hnd']; subst; [auto|].
  apply Forall_forall. intros y Hy. rewrite Forall_forall in Hx.
  unfold str_lt. destruct (str_ltb x y) eqn:E; [reflexivity|].
  exfalso. apply Hni. rewrite (str_ltb_total x y E (Hx y Hy)). exact Hy.
Qed.

(** The sorted distinct elements are in strictly ascending order. *)
Lemma sorted_set_strict (l : list str) : StronglySorted str_lt (sorted_set l).
Proof.
  apply StronglySorted_strict.
  - apply (sort_stable_sorted (fun x : str => x) str_ltb str_ltb_asym str_ge_trans).
  - apply (Permutation_NoDup (l := nub l)); [|apply nub_NoDup].
    symmetry. apply py_sorted_perm.
Qed.

Lemma sorted_set_In (x : str) (l : list str) : In x (sorted_set l) <-> In x l.
Proof. unfold sorted_set. rewrite py_sorted_In. apply nub_In. Qed.

Lemma strict_sorted_head (x : str) (l : list str) :
  StronglySorted str_lt (x :: l) -> ~ In x l.
Proof.
  intros H Hin. inversion H as [|? ? _ Hx]; subst.
  rewrite Forall_forall in Hx. specialize (Hx x Hin).
  unfold str_lt in Hx. rewrite str_ltb_irrefl in Hx. discriminate.
Qed.

(** A strictly ascending list is determined by its elements. *)
Lemma strict_sorted_unique (l1 l2 : list str) :
  StronglySorted str_lt l1 -> StronglySorted str_lt l2 ->
  (forall x, In x l1 <-> In x l2) -> l1 = l2.
Proof.
  revert l2; induction l1 as [|x l1 IH]; intros [|y l2] H1 H2 Hin.
  - reflexivity.
  - exfalso. apply (proj2 (Hin y)). simpl. auto.
  - exfalso. apply (proj1 (Hin x)). simpl. auto.
  - pose proof (strict_sorted_head _ _ H1) as Hx.
    pose proof (strict_sorted_head _ _ H2) as Hy.
    inversion H1 as [|? ? Hs1 Hf1]; inversion H2 as [|? ? Hs2 Hf2]; subst.
    rewrite Forall_forall in Hf1, Hf2.
    assert (E : x = y).
    { destruct (proj1 (Hin x) (or_introl eq_refl)) as [E|Hxy]; [auto|].
      destruct (proj2 (Hin y) (or_introl eq_refl)) as [E|Hyx]; [auto|].
      specialize (Hf1 y Hyx). specialize (Hf2 x Hxy).
      apply str_ltb_asym in Hf1. unfold str_lt in Hf2. congruence. }
    subst y. f_equal. apply IH; try assumption.
    intros z. split; intros Hz.
    + destruct (proj1 (Hin z) (or_intror Hz)) as [<-|H]; [contradiction|exact H].
    + destruct (proj2 (Hin z) (or_intror Hz)) as [<-|H]; [contradiction|exact H].
Qed.

(** The order in which the elements of the set are met plays no part. *)
Lemma sorted_set_order (l l' : list str) :
  NoDup l' -> (forall x, In x l' <-> In x l) -> py_sorted l' = sorted_set l.
Proof.
  intros Hnd Hin. apply strict_sorted_unique.
  - apply StronglySorted_strict.
    + apply (sort_stable_sorted (fun x : str => x) str_ltb str_ltb_asym str_ge_trans).
    + apply (Permutation_NoDup (l := l')); [|exact Hnd].
      symmetry. apply py_sorted_perm.
  - apply sorted_set_strict.
  - intros x. rewrite py_sorted_In, sorted_set_In. apply Hin.
Qed.

(** ** Rows that cannot be parsed *)

Lemma getitem_missing {V} (d : list (str * V)) (k : str) :
  ~ In k (map fst d) -> getitem d k = Raise (KeyError k).
Proof.
  induction d as [|[k' v] d IH]; simpl; intros H; [reflexivity|].
  destruct (str_eqb k k') eqn:E.
  - apply str_eqb_eq in E. subst. tauto.
  - apply IH. tauto.
Qed.

Lemma getitem_lookup {V} (d : list (str * V)) (k : str) (v : V) :
  lookup k d = Some v -> getitem d k = Ok v.
Proof.
  induction d as [|[k' v'] d IH]; simpl; [discriminate|].
  destruct (str_eqb k k'); [congruence|exact IH].
Qed.

Lemma parse_rows_app (good rest : list row) (issues : list Issue) :
  parse_rows good = Ok issues ->
  parse_rows (good ++ rest)
  = (more <- parse_rows rest ;; Ok (issues ++ more)).
Proof.
  revert issues; induction good as [|r good IH]; intros issues; simpl.
  - intros H; injection H as <-. destruct (parse_rows rest); reflexivity.
  - destruct (parse_row r) as [i|]; simpl; [|discriminate].
    destruct (parse_rows good) as [is'|]; simpl; [|discriminate].
    intros H; injection H as <-. rewrite (IH is' eq_refl).
    destruct (parse_rows rest); reflexivity.
Qed.

Lemma parse_rows_total (rows : list row) :
  Forall (fun r => exists detail, lookup (py "detail") r = Some (Some detail))
         rows ->
  exists issues, parse_rows rows = Ok issues.
Proof.
  induction 1 as [|r rows (detail & Hd) _ (issues & IH)]; simpl; [eauto|].
  rewrite (parse_row_detail r detail (getitem_lookup _ _ _ Hd)). simpl.
  rewrite IH. simpl. eauto.
Qed.

(** X1. The parsing loop of both report scripts stops at the first row it
    cannot read, whatever the rows after it hold: [KeyError] for [detail]
    when the row has no such column, [TypeError] when the field is [None]
    (a line too short to have it). Rows that all have a [detail] text are
    parsed into as many issues. *)
Theorem parse_rows_first_failure (good : list row) (bad : row)
    (rest : list row) :
  Forall (fun r => exists detail, lookup (py "detail") r = Some (Some detail))
         good ->
  (exists issues,
     parse_rows good = Ok issues /\ length issues = length good)
  /\ (~ In (py "detail") (map fst bad) ->
      parse_rows (good ++ bad :: rest) = Raise (KeyError (py "detail")))
  /\ (lookup (py "detail") bad = Some None ->
      parse_rows (good ++ bad :: rest) = Raise TypeError).
Proof.
  intros Hgood. destruct (parse_rows_total good Hgood) as [issues Hp].
  split; [|split].
  - exists issues. split; [exact Hp|]. apply parse_rows_length, Hp.
  - intros Hmiss. rewrite (parse_rows_app _ _ _ Hp). simpl.
    unfold parse_row. rewrite (getitem_missing _ _ Hmiss). reflexivity.
  - intros Hnone. rewrite (parse_rows_app _ _ _ Hp). simpl.
    unfold parse_row. rewrite (getitem_lookup _ _ _ Hnone). reflexivity.
Qed.

Lemma parse_rows_first_failure_witness :
  parse_rows (sample_rows ++ [(py "name", Some (py "short line"))]
                :: [row_without_policies])
  = Raise (KeyError (py "detail")).
Proof.
  apply (proj1 (proj2 (parse_rows_first_failure sample_rows
                         [(py "name", Some (py "short line"))]
                         [row_without_policies]
                         ltac:(repeat constructor; eexists; reflexivity)))).
  vm_compute. intros [H|[]]. discriminate H.
Defined.

(** ** The extracted names *)

Lemma extracted_or_unknown (lit detail : str) :
  extracted lit detail (or_unknown (re_search (match_backticked lit) detail)).
Proof.
  destruct (re_search (match_backticked lit) detail) as [g|] eqn:Hs; simpl.
  - right. apply search_backticked_Some in Hs as (pre & post & E & Hne & Hg).
    eauto 6.
  - left. apply search_backticked_None in Hs. auto.
Qed.

(** X2. Each of the table, the role and the action of an issue is either
    the literal [Unknown], when the [detail] text has no such pattern, or
    a non-empty text without a backtick that stands in the [detail] text
    between the opening of its pattern and a backtick. *)
Theorem extracted_names (detail : str) :
  extracted (py "Table `public.") detail (table (extract detail))
  /\ extracted (py "for role `") detail (role (extract detail))
  /\ extracted (py "for action `") detail (action (extract detail)).
Proof. repeat split; apply extracted_or_unknown. Qed.

(** X3. No extracted policy name starts or ends with a double quote. A
    [detail] text with a policies segment gives at least one name, and
    one without gives none. *)
Theorem policy_names_unquoted (detail : str) :
  (forall p, In p (policies (extract detail)) ->
     hd_error p <> Some dquote /\ hd_error (rev p) <> Some dquote)
  /\ (has_policies detail -> policy_count (extract detail) >= 1)
  /\ (~ has_policies detail -> policy_count (extract detail) = 0).
Proof.
  split; [|split].
  - intros p Hp. simpl in Hp. rewrite extract_policies_eq in Hp.
    destruct (re_search policies_regex detail) as [g|]; [|contradiction].
    apply in_map_iff in Hp as (x & <- & _).
    destruct (strip_spec [dquote] x) as (_ & _ & _ & _ & _ & H1 & H2).
    split; apply head_kept_dquote; assumption.
  - intros H. apply (proj1 (policy_count_pos detail)) in H. lia.
  - apply (proj2 (policy_count_pos detail)).
Qed.

Lemma policy_names_unquoted_witness :
  policy_count (extract (nth 0 sample_details [])) >= 1.
Proof.
  apply (proj1 (proj2 (policy_names_unquoted (nth 0 sample_details [])))).
  apply has_policies_search. eexists. vm_compute. reflexivity.
Defined.

(** ** What [table_summary] holds *)

Lemma nub_length (l : list str) : (length (nub l) <= length l)%nat.
Proof.
  induction l as [|x l IH]; simpl; [lia|].
  pose proof (filter_length_le (fun y => negb (str_eqb y x)) (nub l)). lia.
Qed.

(** X4. In both scripts [table_summary] has one entry for each table of
    the issues, in the order in which the tables first occur, so the
    number of affected tables is at most the number of issues, and is 0
    only when there is no issue. *)
Theorem table_summary_tables (sep : str) (issues : list Issue) :
  map fst (group sep issues) = nub (map table issues)
  /\ NoDup (map fst (group sep issues))
  /\ (forall t, In t (map fst (group sep issues))
                <-> exists i, In i issues /\ table i = t)
  /\ (length (group sep issues) <= length issues)%nat
  /\ (group sep issues = [] <-> issues = []).
Proof.
  split; [apply keys_group|]. split; [apply group_NoDup|]. split; [|split].
  - intros t. rewrite keys_group, nub_In, in_map_iff.
    split; intros (i & H1 & H2); eauto.
  - rewrite <- (length_map fst), keys_group, <- (length_map table issues).
    apply nub_length.
  - split.
    + intros E. destruct issues as [|i issues]; [reflexivity|].
      exfalso. apply (group_nonempty sep (i :: issues)); [discriminate|exact E].
    + intros ->. reflexivity.
Qed.

Lemma keyed_append (key : str) (cf : Conflict) (s : Summary) (k : str)
    (c : Conflict) :
  In (k, c) (keyed_conflicts (append_conflict key cf s))
  <-> In (k, c) (keyed_conflicts s) \/ (k = key /\ c = cf).
Proof.
  unfold keyed_conflicts, append_conflict. simpl.
  induction (role_actions s) as [|[k0 cs] d IH]; simpl.
  - split; [intros [E|[]]; injection E; auto|intros [[]|[-> ->]]; auto].
  - destruct (str_eqb key k0) eqn:E; simpl.
    + apply str_eqb_eq in E. subst k0.
      rewrite !in_app_iff, map_app, in_app_iff. simpl.
      split; [intros [[H|[H|[]]]|H]|intros [[H|H]|[-> ->]]]; auto.
      injection H as <- <-. auto.
    + rewrite !in_app_iff, IH. tauto.
Qed.

Lemma keyed_length_append (key : str) (cf : Conflict) (s : Summary) :
  length (keyed_conflicts (append_conflict key cf s))
  = S (length (keyed_conflicts s)).
Proof.
  unfold keyed_conflicts, append_conflict. simpl.
  induction (role_actions s) as [|[k0 cs] d IH]; simpl; [reflexivity|].
  destruct (str_eqb key k0); simpl.
  - rewrite !length_app, !length_map, length_app. simpl. lia.
  - rewrite !length_app, IH. lia.
Qed.

Lemma nonempty_dd_append (key : str) (cf : Conflict)
    (d : list (str * list Conflict)) :
  Forall (fun item => snd item <> []) d ->
  Forall (fun item => snd item <> [])
         (dd_modify [] (fun conflicts => conflicts ++ [cf]) key d).
Proof.
  induction 1 as [|[k0 cs] d Hcs Hd IH]; simpl.
  - repeat constructor. discriminate.
  - destruct (str_eqb key k0); constructor; simpl in *; auto.
    destruct cs; discriminate.
Qed.

Lemma wf_append (key : str) (cf : Conflict) (s : Summary) :
  summary_wf s -> summary_wf (append_conflict key cf s).
Proof.
  intros [Hnd Hne]. unfold summary_wf, append_conflict. simpl. split.
  - rewrite keys_dd_modify. apply add_key_NoDup, Hnd.
  - apply nonempty_dd_append, Hne.
Qed.

Lemma keyed_fold (sep : str) (t : str) (issues : list Issue)
    (ts : list (str * Summary)) (k : str) (c : Conflict) :
  In (k, c) (keyed_conflicts (get_summary t (fold_left (group_step sep) issues ts)))
  <-> In (k, c) (keyed_conflicts (get_summary t ts))
      \/ exists i, In i (issues_of t issues)
                   /\ role_action_key sep i = k /\ conflict_of i = c.
Proof.
  revert ts; induction issues as [|i issues IH]; intros ts.
  - simpl. split; [auto|]. intros [H|(i & [] & _)]. exact H.
  - cbn [fold_left]. rewrite IH, get_group_step. unfold issues_of. simpl filter.
    rewrite (str_eqb_sym (table i) t).
    destruct (str_eqb t (table i)) eqn:E.
    + apply str_eqb_eq in E. subst t. rewrite keyed_append.
      unfold incr_total, keyed_conflicts at 1. simpl role_actions.
      fold (keyed_conflicts (get_summary (table i) ts)).
      split.
      * intros [[H|[-> ->]]|(j & Hj & Ej)].
        -- auto.
        -- right. exists i. simpl. auto.
        -- right. exists j. simpl. tauto.
      * intros [H|(j & [<-|Hj] & Ek & Ec)].
        -- auto.
        -- left. right. split; symmetry; assumption.
        -- right. exists j. auto.
    + reflexivity.
Qed.

Lemma keyed_length_fold (sep : str) (t : str) (issues : list Issue)
    (ts : list (str * Summary)) :
  length (keyed_conflicts (get_summary t (fold_left (group_step sep) issues ts)))
  = (length (keyed_conflicts (get_summary t ts))
     + length (issues_of t issues))%nat.
Proof.
  revert ts; induction issues as [|i issues IH]; intros ts.
  - simpl. lia.
  - cbn [fold_left]. rewrite IH, get_group_step. unfold issues_of. simpl filter.
    rewrite (str_eqb_sym (table i) t).
    destruct (str_eqb t (table i)) eqn:E.
    + apply str_eqb_eq in E. subst t. rewrite keyed_length_append.
      simpl length. unfold keyed_conflicts, incr_total. simpl. lia.
    + reflexivity.
Qed.

Lemma wf_fold (sep : str) (t : str) (issues : list Issue)
    (ts : list (str * Summary)) :
  summary_wf (get_summary t ts) ->
  summary_wf (get_summary t (fold_left (group_step sep) issues ts)).
Proof.
  revert ts; induction issues as [|i issues IH]; intros ts Hwf; [exact Hwf|].
  cbn [fold_left]. apply IH. rewrite get_group_step.
  destruct (str_eqb t (table i)) eqn:E; [|exact Hwf].
  apply str_eqb_eq in E. subst t. apply wf_append. exact Hwf.
Qed.

(** A key made by the grouping is split in two at its first separator. *)
Lemma split_key_defined (sep role_ action_ : str) :
  exists r a,
    split_key sep (role_ ++ sep ++ action_) = Ok (r, a)
    /\ role_ ++ sep ++ action_ = r ++ sep ++ a.
Proof.
  destruct (find_sep_complete sep role_ action_) as (r & a & H).
  exists r, a. unfold split_key, py_split. cbn [split_loop]. rewrite H.
  split; [reflexivity|]. apply find_sep_Some, H.
Qed.

Lemma group_summary (sep : str) (issues : list Issue) (t : str) (s : Summary) :
  In (t, s) (group sep issues) -> s = get_summary t (group sep issues).
Proof.
  intros Hin. unfold get_summary.
  rewrite (lookup_In t s); [reflexivity|apply group_NoDup|exact Hin].
Qed.

Lemma keyed_In_item (s : Summary) (k : str) (cs : list Conflict) (c : Conflict) :
  In (k, cs) (role_actions s) -> In c cs -> In (k, c) (keyed_conflicts s).
Proof.
  intros Hitem Hc. unfold keyed_conflicts. apply in_flat_map.
  exists (k, cs). split; [exact Hitem|]. simpl. apply in_map, Hc.
Qed.

Lemma group_wf (sep : str) (issues : list Issue) (t : str) (s : Summary) :
  In (t, s) (group sep issues) -> summary_wf s.
Proof.
  intros Hin. rewrite (group_summary _ _ _ _ Hin).
  apply wf_fold. split; constructor.
Qed.

Lemma group_keyed (sep : str) (issues : list Issue) (t : str) (s : Summary)
    (k : str) (c : Conflict) :
  In (t, s) (group sep issues) ->
  (In (k, c) (keyed_conflicts s)
   <-> exists i, In i issues /\ table i = t
                 /\ role_action_key sep i = k /\ conflict_of i = c).
Proof.
  intros Hin. rewrite (group_summary _ _ _ _ Hin) at 1.
  unfold group. rewrite keyed_fold. simpl. unfold issues_of. split.
  - intros [[]|(i & Hi & Ek & Ec)]. apply filter_In in Hi as [Hi Et].
    apply str_eqb_eq in Et. eauto 6.
  - intros (i & Hi & Et & Ek & Ec). right. exists i. split; [|auto].
    apply filter_In. split; [exact Hi|]. apply str_eqb_eq, Et.
Qed.

Lemma group_keyed_length (sep : str) (issues : list Issue) (t : str)
    (s : Summary) :
  In (t, s) (group sep issues) ->
  length (keyed_conflicts s) = length (issues_of t issues).
Proof.
  intros Hin. rewrite (group_summary _ _ _ _ Hin).
  unfold group. rewrite keyed_length_fold. reflexivity.
Qed.

Lemma group_items_split (sep : str) (issues : list Issue) (t : str)
    (s : Summary) (k : str) (cs : list Conflict) :
  In (t, s) (group sep issues) -> In (k, cs) (role_actions s) ->
  cs <> [] /\ exists r a, split_key sep k = Ok (r, a) /\ k = r ++ sep ++ a.
Proof.
  intros Hin Hitem. destruct (group_wf _ _ _ _ Hin) as [_ Hne].
  rewrite Forall_forall in Hne.
  pose proof (Hne _ Hitem) as Hcs. simpl in Hcs. split; [exact Hcs|].
  destruct cs as [|c cs]; [congruence|].
  pose proof (keyed_In_item s k (c :: cs) c Hitem (or_introl eq_refl)) as Hk.
  apply (group_keyed sep issues t s k c Hin) in Hk as (i & _ & _ & <- & _).
  apply split_key_defined.
Qed.

(** X5. For every table of [table_summary], in both scripts:
    [total_issues] is the number of conflicts filed under the table; the
    role and action keys are distinct and none of their lists is empty, so
    [conflicts[0]] is defined; every key is split by [split(sep, 1)] into
    two parts without an exception; and the conflicts filed are those of
    the issues of the table, each under the key of its issue. The
    separator is the non-empty one of the script. *)
Theorem grouping_invariants (sep : str) (issues : list Issue) (t : str)
    (s : Summary) :
  sep <> [] ->
  In (t, s) (group sep issues) ->
  total_issues s = Z.of_nat (length (keyed_conflicts s))
  /\ NoDup (map fst (role_actions s))
  /\ (forall k cs, In (k, cs) (role_actions s) ->
        cs <> []
        /\ exists r a, split_key sep k = Ok (r, a) /\ k = r ++ sep ++ a)
  /\ (forall k c, In (k, c) (keyed_conflicts s)
                  <-> exists i, In i issues /\ table i = t
                                /\ role_action_key sep i = k
                                /\ conflict_of i = c).
Proof.
  intros _ Hin. split; [|split; [|split]].
  - rewrite (group_keyed_length _ _ _ _ Hin).
    destruct (group_entry _ _ _ _ Hin) as (_ & Htot & _). exact Htot.
  - apply (group_wf _ _ _ _ Hin).
  - intros k cs. apply (group_items_split _ _ _ _ _ _ Hin).
  - intros k c. apply (group_keyed _ _ _ _ _ _ Hin).
Qed.

Lemma grouping_invariants_witness :
  total_issues
    (mkSummary 2 [(py "anon+SELECT",
                   [mkConflict [py "a"; py "b"] 2; mkConflict [py "c"] 1])])
  = 2.
Proof.
  apply (proj1 (grouping_invariants (py "+")
                  [mkIssue (py "t") (py "anon") (py "SELECT") [py "a"; py "b"] 2;
                   mkIssue (py "t") (py "anon") (py "SELECT") [py "c"] 1]
                  (py "t")
                  (mkSummary 2
                     [(py "anon+SELECT",
                       [mkConflict [py "a"; py "b"] 2; mkConflict [py "c"] 1])])
                  ltac:(discriminate)
                  ltac:(left; reflexivity))).
Defined.

(** X6. In [rls_consolidation_analysis.py] the key is the role, a plus
    sign and the action, and line 75 splits it at the first plus sign: the
    role and the action come back for every role without a plus sign, such
    as [service_role]; a role with one comes back cut short. *)
Theorem plus_key_roundtrip :
  (forall i, ~ In 43%N (role i) ->
     split_key (py "+") (role_action_key (py "+") i) = Ok (role i, action i))
  /\ (forall i, In 43%N (role i) ->
        exists r a,
          split_key (py "+") (role_action_key (py "+") i) = Ok (r, a)
          /\ (length r < length (role i))%nat)
  /\ (forall t a ps n,
        split_key (py "+")
          (role_action_key (py "+") (mkIssue t (py "service_role") a ps n))
        = Ok (py "service_role", a)).
Proof.
  unfold split_key, role_action_key, py_split. cbn [split_loop].
  change (py "+") with [43%N]. split; [|split].
  - intros i Hni. change ([43%N] ++ action i) with (43%N :: action i).
    rewrite find_sep_first by exact Hni. reflexivity.
  - intros i Hin.
    destruct (first_occurrence _ _ Hin) as (a1 & a2 & E & Hni).
    rewrite E, <- app_assoc. cbn [app].
    rewrite find_sep_first by exact Hni.
    exists a1, (a2 ++ [43%N] ++ action i). split; [reflexivity|].
    rewrite length_app. simpl. lia.
  - intros t a ps n. cbn [role action].
    change ([43%N] ++ a) with (43%N :: a).
    rewrite find_sep_first; [reflexivity|].
    vm_compute. intuition discriminate.
Qed.

Lemma plus_key_roundtrip_witness :
  split_key (py "+")
    (role_action_key (py "+")
       (mkIssue (py "tasks") (py "supabase_admin") (py "DELETE") [] 0))
  = Ok (py "supabase_admin", py "DELETE").
Proof.
  apply (proj1 plus_key_roundtrip
           (mkIssue (py "tasks") (py "supabase_admin") (py "DELETE") [] 0)).
  vm_compute. intuition discriminate.
Defined.

(** ** Counting by a field *)

Lemma count_issues_length (field : Issue -> str) (k : str)
    (issues : list Issue) :
  count_issues field k issues
  = Z.of_nat (length (filter (fun i => str_eqb (field i) k) issues)).
Proof.
  unfold count_issues. rewrite py_sum_zsum.
  induction (filter _ issues) as [|x l IH]; [reflexivity|].
  cbn [map zsum length]. rewrite IH. lia.
Qed.

Lemma count_absent (field : Issue -> str) (k : str) (issues : list Issue) :
  ~ In k (map field issues) -> count_issues field k issues = 0.
Proof.
  intros H. rewrite count_issues_length.
  induction issues as [|i issues IH]; [reflexivity|]. simpl in *.
  destruct (str_eqb (field i) k) eqn:E.
  - apply str_eqb_eq in E. tauto.
  - apply IH. tauto.
Qed.

Lemma zsum_split (g : str -> Z) (x : str) (ks : list str) :
  NoDup ks ->
  zsum (map g ks)
  = (if existsb (str_eqb x) ks then g x else 0)
    + zsum (map g (filter (fun y => negb (str_eqb y x)) ks)).
Proof.
  induction 1 as [|k ks Hni Hnd IH]; [reflexivity|]. cbn [map zsum existsb filter].
  rewrite IH, (str_eqb_sym k x).
  destruct (str_eqb x k) eqn:E; cbn [negb orb map zsum].
  - apply str_eqb_eq in E. subst k.
    assert (Hx : existsb (str_eqb x) ks = false).
    { destruct (existsb (str_eqb x) ks) eqn:Ex; [|reflexivity].
      apply existsb_str_eqb in Ex. contradiction. }
    rewrite Hx. lia.
  - lia.
Qed.

(** The numbers of issues of the distinct values of a field add up to the
    number of issues. *)
Lemma count_partition (field : Issue -> str) (issues : list Issue) :
  zsum (map (fun k => count_issues field k issues) (nub (map field issues)))
  = Z.of_nat (length issues).
Proof.
  induction issues as [|i issues IH]; [reflexivity|].
  cbn [map nub zsum].
  assert (Hrest : map (fun k => count_issues field k (i :: issues))
                      (filter (fun y => negb (str_eqb y (field i)))
                              (nub (map field issues)))
                  = map (fun k => count_issues field k issues)
                        (filter (fun y => negb (str_eqb y (field i)))
                                (nub (map field issues)))).
  { apply map_ext_in. intros k Hk. apply filter_In in Hk as [_ Hk].
    apply negb_true_iff in Hk. rewrite !count_issues_length. simpl filter.
    rewrite (str_eqb_sym (field i) k), Hk. reflexivity. }
  rewrite Hrest.
  rewrite (zsum_split (fun k => count_issues field k issues) (field i)
             (nub (map field issues)) (nub_NoDup _)) in IH.
  assert (Hhead : count_issues field (field i) (i :: issues)
                  = 1 + count_issues field (field i) issues).
  { rewrite !count_issues_length. simpl filter. rewrite str_eqb_refl.
    simpl length. lia. }
  rewrite Hhead.
  destruct (existsb (str_eqb (field i)) (nub (map field issues))) eqn:Ex.
  - simpl length. lia.
  - assert (H0 : count_issues field (field i) issues = 0).
    { apply count_absent. rewrite <- nub_In. intros Hin.
      apply existsb_str_eqb in Hin. congruence. }
    simpl length. lia.
Qed.

Lemma zsum_perm (l l' : list Z) : Permutation l l' -> zsum l = zsum l'.
Proof. induction 1; simpl; lia. Qed.

(** X7. The lines under AFFECTED TABLES and under AFFECTED ROLES of
    [analyze_rls_issues.py] list each value of the field once, in strictly
    ascending order, with the number of issues that have it, which is at
    least 1; the numbers add up to the number of issues. *)
Theorem affected_listing (field : Issue -> str) (issues : list Issue) :
  StronglySorted str_lt (map fst (affected field issues))
  /\ (forall k, In k (map fst (affected field issues))
                <-> exists i, In i issues /\ field i = k)
  /\ (forall k n, In (k, n) (affected field issues) ->
        n = Z.of_nat (length (filter (fun i => str_eqb (field i) k) issues))
        /\ n >= 1)
  /\ py_sum (map snd (affected field issues)) = Z.of_nat (length issues).
Proof.
  unfold affected. rewrite !map_map. simpl. rewrite map_id.
  split; [apply sorted_set_strict|]. split; [|split].
  - intros k. rewrite sorted_set_In, in_map_iff.
    split; intros (i & H1 & H2); eauto.
  - intros k n Hin. apply in_map_iff in Hin as (k' & E & Hk).
    injection E as -> <-. rewrite count_issues_length. split; [reflexivity|].
    apply sorted_set_In, in_map_iff in Hk as (i & Ei & Hi).
    assert (Hf : In i (filter (fun i0 => str_eqb (field i0) k) issues)).
    { apply filter_In. split; [exact Hi|]. apply str_eqb_eq, Ei. }
    destruct (filter _ issues); [contradiction|]. simpl length. lia.
  - rewrite py_sum_zsum. rewrite <- (count_partition field issues).
    apply zsum_perm, Permutation_map. apply py_sorted_perm.
Qed.

(** X8. The number of issues printed for a table under AFFECTED TABLES is
    the [total_issues] printed for it in the summary by table. *)
Theorem affected_tables_match_summary (issues : list Issue) (t : str) (n : Z) :
  In (t, n) (affected table issues) ->
  exists s, In (t, s) (group (py "_") issues) /\ total_issues s = n.
Proof.
  intros Hin. unfold affected in Hin.
  apply in_map_iff in Hin as (k & E & Hk). injection E as -> <-.
  apply (proj1 (sorted_set_In _ _)) in Hk.
  assert (Hkey : In t (map fst (group (py "_") issues))).
  { rewrite keys_group. apply nub_In, Hk. }
  apply in_map_iff in Hkey as ([t' s] & Et & Hts). simpl in Et. subst t'.
  exists s. split; [exact Hts|].
  destruct (group_entry _ _ _ _ Hts) as (_ & Htot & _).
  rewrite Htot, count_issues_length. reflexivity.
Qed.

Lemma affected_tables_match_summary_witness :
  exists s, In (py "projects", s) (group (py "_") sample_issues)
            /\ total_issues s = 2.
Proof.
  apply (affected_tables_match_summary sample_issues (py "projects") 2).
  vm_compute. left. reflexivity.
Defined.

(** X9. The lines under ALL POLICY NAMES list every policy name of every
    issue once, in strictly ascending order, and nothing else. *)
Theorem all_policies_listing (issues : list Issue) :
  StronglySorted str_lt (all_policies issues)
  /\ (forall p, In p (all_policies issues)
                <-> exists i, In i issues /\ In p (policies i))
  /\ (Z.of_nat (length (all_policies issues))
      <= zsum (map (fun i => Z.of_nat (length (policies i))) issues)).
Proof.
  unfold all_policies. split; [apply sorted_set_strict|]. split.
  - intros p. rewrite sorted_set_In, in_flat_map. reflexivity.
  - unfold sorted_set.
    rewrite (Permutation_length (py_sorted_perm _)).
    assert (E : Z.of_nat (length (flat_map policies issues))
                = zsum (map (fun i => Z.of_nat (length (policies i))) issues)).
    { induction issues as [|i issues IH]; [reflexivity|].
      cbn [flat_map map zsum]. rewrite length_app, <- IH. lia. }
    pose proof (nub_length (flat_map policies issues)) as H.
    lia.
Qed.

(** ** The consolidation plan *)








Lemma Forall2_length_eq {A B} (R : A -> B -> Prop) (l : list A) (l' : list B) :
  Forall2 R l l' -> length l = length l'.
Proof. induction 1; simpl; congruence. Qed.






(** ** The statistics of [rls_consolidation_analysis.py] *)

Lemma performance_vars_entries (rows : list row) (issues : list Issue) :
  parse_rows rows = Ok issues ->
  exists es,
    Forall2 entry_of (group (py "+") issues) es
    /\ let ts := group (py "+") issues in
       let data := rebound ts (rebound ts (DataRows rows)) in
       performance_vars rows
       = Ok (mkVars data ts (py_sort severity_key tuple_lt true es)
                    (sumv total_issues ts)
                    (total_policy_executions_before ts) (len_data data)).
Proof.
  intros Hp.
  destruct (severity_loop_ok (group (py "+") issues) (DataRows rows) [])
    as (es & Hloop & Hes).
  { intros t s. apply group_counts_nonempty. }
  exists es. split; [exact Hes|]. cbv zeta.
  unfold performance_vars, severity_ranking. rewrite Hp. cbn [bind].
  rewrite Hloop. cbn [bind fst snd app]. rewrite consolidation_loop_spec.
  reflexivity.
Qed.

Lemma entry_of_counts (items : list (str * Summary)) (es : list severity_entry) :
  Forall2 entry_of items es ->
  zsum (map (fun e => snd (fst e)) es) = sumv total_issues items.
Proof.
  unfold sumv. induction 1 as [|ts e items es (_ & En & _) _ IH]; simpl;
    [reflexivity|]. rewrite IH, En. reflexivity.
Qed.

(** X11. For rows that are parsed, the number printed as Total
    consolidations needed is the number of rows, and
    [total_policy_executions_before] is the sum of the policy counts of
    the issues: grouping by table, role and action loses no conflict and
    counts none twice. *)
Theorem consolidation_totals (rows : list row) (issues : list Issue) :
  parse_rows rows = Ok issues ->
  exists v,
    performance_vars rows = Ok v
    /\ v_table_summary v = group (py "+") issues
    /\ v_consolidation_needed v = Z.of_nat (length rows)
    /\ v_before v = zsum (map policy_count issues)
    /\ v_before v
       = zsum (map (fun i => Z.of_nat (length (policies i))) issues).
Proof.
  intros Hp. destruct (performance_vars_entries rows issues Hp) as (es & _ & Hv).
  cbv zeta in Hv. eexists. split; [exact Hv|].
  cbn [v_table_summary v_consolidation_needed v_before].
  split; [reflexivity|]. split; [|split].
  - pose proof (totals_fold (py "+") issues []) as H. unfold group.
    rewrite H, (parse_rows_length _ _ Hp). reflexivity.
  - apply before_group.
  - rewrite before_group. f_equal.
    pose proof (parse_rows_parsed _ _ Hp) as Hparsed. clear Hp Hv.
    induction Hparsed as [|r i rows issues (detail & _ & ->) _ IH];
      [reflexivity|]. cbn [map]. rewrite IH. reflexivity.
Qed.

Lemma consolidation_totals_witness :
  exists v,
    performance_vars sample_rows = Ok v
    /\ v_consolidation_needed v = 3 /\ v_before v = 5.
Proof.
  destruct (consolidation_totals sample_rows sample_issues)
    as (v & Hv & _ & Hn & Hb & _).
  - vm_compute. reflexivity.
  - exists v. split; [exact Hv|]. split; [exact Hn|].
    rewrite Hb. vm_compute. reflexivity.
Defined.

(** X12. For rows that are parsed, the issue counts listed in the
    severity ranking add up to the number of rows. *)
Theorem ranking_counts_total (rows : list row) (issues : list Issue) :
  parse_rows rows = Ok issues ->
  exists v,
    performance_vars rows = Ok v
    /\ length (v_severity_by_table v) = length (v_table_summary v)
    /\ zsum (map (fun e => snd (fst e)) (v_severity_by_table v))
       = Z.of_nat (length rows).
Proof.
  intros Hp. destruct (performance_vars_entries rows issues Hp) as (es & Hes & Hv).
  cbv zeta in Hv. eexists. split; [exact Hv|].
  cbn [v_severity_by_table v_table_summary].
  pose proof (py_sort_perm severity_key tuple_lt true es) as Hperm. split.
  - rewrite (Permutation_length Hperm). symmetry.
    apply (Forall2_length_eq _ _ _ Hes).
  - etransitivity; [apply zsum_perm, Permutation_map, Hperm|].
    etransitivity; [apply (entry_of_counts _ _ Hes)|].
    pose proof (totals_fold (py "+") issues []) as H. unfold group.
    rewrite H, (parse_rows_length _ _ Hp). reflexivity.
Qed.

Lemma ranking_counts_total_witness :
  exists v,
    performance_vars sample_rows = Ok v
    /\ zsum (map (fun e => snd (fst e)) (v_severity_by_table v)) = 3.
Proof.
  destruct (ranking_counts_total sample_rows sample_issues)
    as (v & Hv & _ & Hsum).
  - vm_compute. reflexivity.
  - exists v. split; [exact Hv|exact Hsum].
Defined.

(** ** The processes [analyze-db.py] spawns *)

Lemma run_cases_shape (url : str) (mcp : list str -> str -> str * str)
    (argv : list str) :
  (exists line, run url mcp argv = rejected line)
  \/ (exists banner name arguments,
        run url mcp argv = forwarded url mcp banner name arguments
        /\ (arguments = JObject []
            \/ exists query, arguments = JObject [(py "query", JString query)])).
Proof.
  destruct argv as [|prog [|command rest]];
    [left; exists usage; reflexivity|left; exists usage; reflexivity|].
  destruct (str_eqb command (py "health")) eqn:E1.
  { apply str_eqb_eq in E1. subst. right. rewrite run_health. eauto 7. }
  destruct (str_eqb command (py "slow-queries")) eqn:E2.
  { apply str_eqb_eq in E2. subst. right. rewrite run_slow_queries. eauto 7. }
  destruct (str_eqb command (py "index-recommend")) eqn:E3.
  { apply str_eqb_eq in E3. subst. right. rewrite run_index_recommend. eauto 7. }
  apply str_eqb_neq in E1, E2, E3.
  destruct (str_eqb command (py "explain")) eqn:E4.
  - apply str_eqb_eq in E4. subst. destruct rest as [|query rest].
    + left. rewrite run_rejected; eauto.
    + right. rewrite run_explain. eauto 8.
  - apply str_eqb_neq in E4. left. rewrite run_rejected; eauto.
Qed.


(** X14. The script name and every argument after the ones a subcommand
    uses play no part: [health], [slow-queries] and [index-recommend] read
    nothing after the command, and [explain] reads only the query. *)
Theorem extra_arguments_ignored (url : str)
    (mcp : list str -> str -> str * str) (prog prog' command : str)
    (rest rest' : list str) :
  command = py "health" \/ command = py "slow-queries"
  \/ command = py "index-recommend" ->
  run url mcp (prog :: command :: rest) = run url mcp [prog'; command]
  /\ (forall query,
        run url mcp (prog :: py "explain" :: query :: rest)
        = run url mcp [prog'; py "explain"; query]).
Proof.
  intros Hc. split.
  - destruct Hc as [->|[->| ->]].
    + rewrite !run_health. reflexivity.
    + rewrite !run_slow_queries. reflexivity.
    + rewrite !run_index_recommend. reflexivity.
  - intros query. rewrite !run_explain. reflexivity.
Qed.

Lemma extra_arguments_ignored_witness :
  run (py "postgresql://localhost/postgres") (fun _ _ => (py "ok", []))
      [py "analyze-db.py"; py "health"; py "--verbose"; py "--json"]
  = run (py "postgresql://localhost/postgres") (fun _ _ => (py "ok", []))
        [py "python"; py "health"].
Proof.
  apply (proj1 (extra_arguments_ignored
                  (py "postgresql://localhost/postgres")
                  (fun _ _ => (py "ok", []))
                  (py "analyze-db.py") (py "python") (py "health")
                  [py "--verbose"; py "--json"] []
                  (or_introl eq_refl))).
Defined.

(** ** The text of the request *)

Lemma hex_digit_printable (n : N) : (n < 16)%N -> printable (hex_digit n).
Proof.
  intros H. unfold printable, hex_digit.
  destruct (N.ltb_spec n 10); lia.
Qed.

Lemma hex4_printable (n : N) : Forall printable (hex4 n).
Proof.
  unfold hex4.
  repeat constructor; apply hex_digit_printable, N.mod_upper_bound; discriminate.
Qed.

Lemma literal_printable (s : string) :
  forallb (fun c => (32 <=? c)%N && (c <=? 126)%N) (py s) = true ->
  Forall printable (py s).
Proof.
  intros H. apply Forall_forall. intros c Hc.
  rewrite forallb_forall in H. specialize (H c Hc).
  apply andb_true_iff in H as [H1 H2].
  apply N.leb_le in H1, H2. split; assumption.
Qed.

Lemma dquote_printable : Forall printable [dquote].
Proof. repeat constructor; unfold dquote; lia. Qed.

Lemma u_escape_printable (n : N) : Forall printable (u_escape n).
Proof.
  unfold u_escape. apply Forall_app. split; [|apply hex4_printable].
  apply literal_printable. reflexivity.
Qed.

Lemma escape_char_printable (c : char) : Forall printable (escape_char c).
Proof.
  unfold escape_char.
  destruct (c =? 92)%N; [apply literal_printable; reflexivity|].
  destruct (c =? dquote)%N.
  { apply (Forall_app printable [92%N] [dquote]). split; [|apply dquote_printable].
    repeat constructor; lia. }
  destruct ((32 <=? c)%N && (c <=? 126)%N) eqn:E.
  { apply andb_true_iff in E as [H1 H2]. apply N.leb_le in H1, H2.
    repeat constructor; assumption. }
  destruct (c =? 8)%N; [apply literal_printable; reflexivity|].
  destruct (c =? 12)%N; [apply literal_printable; reflexivity|].
  destruct (c =? 10)%N; [apply literal_printable; reflexivity|].
  destruct (c =? 13)%N; [apply literal_printable; reflexivity|].
  destruct (c =? 9)%N; [apply literal_printable; reflexivity|].
  destruct (c <? 65536)%N; [apply u_escape_printable|].
  apply Forall_app. split; apply u_escape_printable.
Qed.

Lemma json_quote_printable (s : str) : Forall printable (json_quote s).
Proof.
  unfold json_quote. apply Forall_app. split; [apply dquote_printable|].
  apply Forall_app. split; [|apply dquote_printable].
  apply Forall_flat_map, Forall_forall. intros c _. apply escape_char_printable.
Qed.

Lemma tools_call_printable (name : str) (arguments : json) :
  arguments = JObject []
  \/ (exists query, arguments = JObject [(py "query", JString query)]) ->
  Forall printable (json_dumps (tools_call name arguments)).
Proof.
  intros [->|[query ->]]; unfold tools_call;
    cbn [json_dumps map join fst snd];
    repeat first
      [ apply json_quote_printable
      | apply Forall_nil
      | apply Forall_app; split
      | apply literal_printable; reflexivity ].
Qed.

(** X15. The text written to the standard input of the spawned process is
    made of printable ASCII characters only, whatever the query holds: the
    request is on one line, and quotes, backslashes, control characters and
    characters outside ASCII are sent escaped. *)
Theorem request_is_printable_ascii (url : str)
    (mcp : list str -> str -> str * str) (argv : list str) (args : list str)
    (input : str) :
  In (args, input) (spawned (fst (run url mcp argv))) ->
  Forall printable input /\ ~ In newline input.
Proof.
  intros Hin.
  assert (H : Forall printable input).
  { destruct (run_cases_shape url mcp argv)
      as [[line E]|(banner & name & arguments & E & Hshape)];
      rewrite E in Hin; simpl in Hin; [contradiction|].
    destruct Hin as [Hin|[]]. injection Hin as _ <-.
    apply tools_call_printable, Hshape. }
  split; [exact H|]. intros Hnl. rewrite Forall_forall in H.
  specialize (H _ Hnl). unfold printable, newline in H. lia.
Qed.

Lemma request_is_printable_ascii_witness :
  ~ In newline
      (json_dumps
         (tools_call (py "explain_query")
            (JObject [(py "query",
                       JString (py "SELECT 1" ++ [newline; 233%N; dquote]))]))).
Proof.
  apply (request_is_printable_ascii
           (py "postgresql://localhost/postgres") (fun _ _ => ([], []))
           [py "analyze-db.py"; py "explain";
            py "SELECT 1" ++ [newline; 233%N; dquote]]
           (mcp_args (py "postgresql://localhost/postgres"))).
  left. reflexivity.
Defined.
